(** * Shell quoting and command-line preparation (Theia)

    A shallow embedding of
    - [packages/process/src/common/shell-quoting.ts]
    - [packages/debug/src/browser/run-in-terminal.ts]
    - the shell classification of
      [packages/task/src/node/process/process-task-runner.ts]
    together with the properties stated about them. *)

From Stdlib Require Import List NArith Bool Ascii Lia.
From Stdlib Require String.
Import ListNotations String.StringSyntax.

Local Open Scope string_scope.
Local Open Scope N_scope.
Local Open Scope list_scope.

(* ================================================================== *)
(** ** JavaScript strings *)

(** A JavaScript string is a sequence of UTF-16 code units. *)
Definition jsstring := list N.

(** An ASCII literal of the source as a JavaScript string. *)
Definition lit (s : String.string) : jsstring :=
  map N_of_ascii (String.list_ascii_of_string s).

(** [Array.prototype.join(sep)] on an array of strings. *)
Fixpoint join (sep : jsstring) (l : list jsstring) : jsstring :=
  match l with
  | [] => []
  | [x] => x
  | x :: r => x ++ sep ++ join sep r
  end.

(** Truthiness of a string: only the empty string is falsy. *)
Definition truthy (s : jsstring) : bool :=
  match s with [] => false | _ :: _ => true end.

(** Code units named in the sources. *)
Definition TAB : N := 9.
Definition LF : N := 10.
Definition CR : N := 13.
Definition SPACE : N := 32.
Definition DQUOTE : N := 34.
Definition PERCENT : N := 37.
Definition SQUOTE : N := 39.
Definition QUESTION : N := 63.
Definition BACKSLASH : N := 92.
Definition CARET : N := 94.
Definition BACKTICK : N := 96.

(* ================================================================== *)
(** ** The regular expressions of the sources *)

Module Regex.

(** ECMAScript [LineTerminator]: LF, CR, U+2028, U+2029. *)
Definition isLineTerminator (c : N) : bool :=
  (c =? 10) || (c =? 13) || (c =? 8232) || (c =? 8233).

(** ECMAScript [\s]: [WhiteSpace] and [LineTerminator] code units. *)
Definition isWhiteSpace (c : N) : bool :=
  (c =? 9) || (c =? 11) || (c =? 12) || (c =? 32) || (c =? 160)
  || (c =? 5760) || ((8192 <=? c) && (c <=? 8202)) || (c =? 8239)
  || (c =? 8287) || (c =? 12288) || (c =? 65279)
  || isLineTerminator c.

(** [Canonicalize] for the [i] flag without the [u] flag: the upper-case
    mapping, except that a code unit of 128 or more never maps below 128.
    The patterns below only hold ASCII letters, for which this is the
    ASCII upper-case mapping on both sides. *)
Definition canonicalize (c : N) : N :=
  if (97 <=? c) && (c <=? 122) then c - 32 else c.

(** One pattern position: a literal code unit, or [.]. *)
Inductive atom : Type :=
| Ch (c : N)
| Dot.

Definition atom_matches (ignoreCase : bool) (a : atom) (c : N) : bool :=
  match a with
  | Dot => negb (isLineTerminator c)
  | Ch p => if ignoreCase then canonicalize p =? canonicalize c else p =? c
  end.

(** The whole of [s] matches the atom sequence [p]. *)
Fixpoint match_exact (ic : bool) (p : list atom) (s : jsstring) : bool :=
  match p, s with
  | [], [] => true
  | a :: p', c :: s' => atom_matches ic a c && match_exact ic p' s'
  | _, _ => false
  end.

(** A prefix of [s] matches the atom sequence [p]. *)
Fixpoint match_prefix (ic : bool) (p : list atom) (s : jsstring) : bool :=
  match p, s with
  | [], _ => true
  | a :: p', c :: s' => atom_matches ic a c && match_prefix ic p' s'
  | _ :: _, [] => false
  end.

(** [p$] matches somewhere: some suffix of [s] matches [p] entirely. *)
Fixpoint search_end (ic : bool) (p : list atom) (s : jsstring) : bool :=
  match_exact ic p s
  || match s with [] => false | _ :: t => search_end ic p t end.

(** [p] matches somewhere in [s]. *)
Fixpoint search (ic : bool) (p : list atom) (s : jsstring) : bool :=
  match_prefix ic p s
  || match s with [] => false | _ :: t => search ic p t end.

(** A regular expression of the shape [(w1|...|wn)(.exe)?] with an optional
    [$] anchor and an optional [i] flag, as its list of alternatives. *)
Record regex : Type := {
  alternatives : list (list atom);
  anchored : bool;
  ignoreCase : bool
}.

(** [RegExp.prototype.test]. *)
Definition test (r : regex) (s : jsstring) : bool :=
  existsb (fun p => if anchored r then search_end (ignoreCase r) p s
                    else search (ignoreCase r) p s)
          (alternatives r).

Definition word (s : String.string) : list atom := map Ch (lit s).

(** [w(.exe)?] as two alternatives. *)
Definition optExe (w : list atom) : list (list atom) :=
  [w; w ++ Dot :: word "exe"].

(** [/bash(.exe)?$/] *)
Definition bash_re : regex :=
  {| alternatives := optExe (word "bash"); anchored := true;
     ignoreCase := false |}.

(** [/(ps|pwsh|powershell)(.exe)?$/i] *)
Definition powershell_re_i : regex :=
  {| alternatives := optExe (word "ps") ++ optExe (word "pwsh")
                     ++ optExe (word "powershell");
     anchored := true; ignoreCase := true |}.

(** [/cmd(.exe)?$/i] *)
Definition cmd_re_i : regex :=
  {| alternatives := optExe (word "cmd"); anchored := true;
     ignoreCase := true |}.

(** [/cmd(.exe)?$/], as written in the task runner. *)
Definition cmd_re : regex :=
  {| alternatives := optExe (word "cmd"); anchored := true;
     ignoreCase := false |}.

(** [/(ps|pwsh|powershell)(.exe)?/], as written in the task runner. *)
Definition powershell_re_unanchored : regex :=
  {| alternatives := optExe (word "ps") ++ optExe (word "pwsh")
                     ++ optExe (word "powershell");
     anchored := false; ignoreCase := false |}.

End Regex.

(* ================================================================== *)
(** ** [String.prototype.replace] for the patterns of the sources *)

Module Replace.

(** [s.replace(/[class]/g, r)] where the replacement of a matched code
    unit [c] is [f c]. *)
Definition chars (p : N -> bool) (f : N -> jsstring) (s : jsstring)
  : jsstring :=
  flat_map (fun c => if p c then f c else [c]) s.

(** [s.replace(/[class]+/g, pre + '$&' + post)]: every maximal run of
    code units of the class is wrapped.  [inrun] tells whether the code
    unit before [s] belongs to a run that is still open. *)
Fixpoint runs_from (p : N -> bool) (pre post : jsstring) (inrun : bool)
  (s : jsstring) : jsstring :=
  match s with
  | [] => if inrun then post else []
  | c :: t =>
      if p c
      then (if inrun then [c] else pre ++ [c]) ++ runs_from p pre post true t
      else (if inrun then post else []) ++ c :: runs_from p pre post false t
  end.

Definition runs (p : N -> bool) (pre post : jsstring) (s : jsstring)
  : jsstring :=
  runs_from p pre post false s.

(** [s.replace(/ab/g, r)] for a pattern of two literal code units:
    matches are found left to right and do not overlap. *)
Fixpoint pair (a b : N) (r : jsstring) (s : jsstring) : jsstring :=
  match s with
  | [] => []
  | x :: u =>
      match u with
      | [] => [x]
      | y :: t =>
          if (x =? a) && (y =? b) then r ++ pair a b r t
          else x :: pair a b r u
      end
  end.

(** [s.replace(/c$/g, r)]: only a final [c] matches. *)
Fixpoint trailing (c : N) (r : jsstring) (s : jsstring) : jsstring :=
  match s with
  | [] => []
  | [x] => if x =? c then r else [x]
  | x :: t => x :: trailing c r t
  end.

(** [s.replace(/\r?\n/, '^$&')]: no [g] flag, so only the leftmost match
    is replaced. *)
Fixpoint first_line_return (s : jsstring) : jsstring :=
  match s with
  | [] => []
  | x :: u =>
      if x =? LF then CARET :: LF :: u
      else
        match u with
        | y :: t =>
            if (x =? CR) && (y =? LF) then CARET :: CR :: LF :: t
            else x :: first_line_return u
        | [] => [x]
        end
  end.

End Replace.

(* ================================================================== *)
(** ** shell-quoting.ts *)

(** [enum ShellQuoting]. *)
Inductive ShellQuoting : Type :=
| Escape
| Strong
| Weak.

(** [interface ShellQuotedString]. *)
Record ShellQuotedString : Type := {
  value : jsstring;
  quoting : ShellQuoting
}.

(** [string | ShellQuotedString]. *)
Inductive ShellArg : Type :=
| Plain (s : jsstring)
| Quoted (q : ShellQuotedString).

(** [interface ShellQuotingFunctions]: every member is optional. *)
Record ShellQuotingFunctions : Type := {
  escape : option (jsstring -> jsstring);
  strong : option (jsstring -> jsstring);
  weak : option (jsstring -> jsstring)
}.

(** [options[quotationStyle]]. *)
Definition lookup (options : ShellQuotingFunctions) (q : ShellQuoting)
  : option (jsstring -> jsstring) :=
  match q with
  | Escape => escape options
  | Strong => strong options
  | Weak => weak options
  end.

Definition escapeForShell (arg : ShellArg) (options : ShellQuotingFunctions)
  : jsstring :=
  let '(quotationStyle, value) :=
    match arg with
    | Plain s => (Strong, s)
    | Quoted q => (quoting q, value q)
    end in
  match lookup options quotationStyle with
  | Some f => f value
  | None => value
  end.

Definition createShellCommandLine (args : list ShellArg)
  (options : ShellQuotingFunctions) : jsstring :=
  join (lit " ") (map (fun arg => escapeForShell arg options) args).

Module Bash.

(** The class of [escape]: white space, backslash, bar, parentheses,
    braces, angle brackets, dollar, ampersand, semicolon and both quotes. *)
Definition special (c : N) : bool :=
  Regex.isWhiteSpace c
  || existsb (N.eqb c) (lit "\|(){}<>$&;" ++ [DQUOTE; SQUOTE]).

Definition escape (arg : jsstring) : jsstring :=
  Replace.chars special (fun c => BACKSLASH :: [c]) arg.

(** A run of single quotes is closed off, written between double quotes,
    and the single-quoted literal reopened. *)
Definition strong (arg : jsstring) : jsstring :=
  [SQUOTE]
  ++ Replace.runs (N.eqb SQUOTE) [SQUOTE; DQUOTE] [DQUOTE; SQUOTE] arg
  ++ [SQUOTE].

Definition weak (arg : jsstring) : jsstring :=
  [DQUOTE]
  ++ Replace.trailing BACKSLASH [BACKSLASH; BACKSLASH]
       (Replace.chars (N.eqb DQUOTE) (fun _ => [BACKSLASH; DQUOTE])
          (Replace.pair BACKSLASH DQUOTE [BACKSLASH; BACKSLASH; DQUOTE] arg))
  ++ [DQUOTE].

End Bash.

Module Cmd.

(** The class of [escape]: percent, ampersand, backslash, angle brackets,
    caret, bar and the double quote. *)
Definition special (c : N) : bool :=
  existsb (N.eqb c) (lit "%&\<>^|" ++ [DQUOTE]).

Definition escape (arg : jsstring) : jsstring :=
  Replace.runs Regex.isWhiteSpace [DQUOTE] [DQUOTE]
    (Replace.chars special (fun c => CARET :: [c]) arg).

(** The trailing-backslash replacement of the source writes one backslash
    for the one it matched; the line-return replacement is applied to the
    delimited string. *)
Definition weak (arg : jsstring) : jsstring :=
  Replace.first_line_return
    ([DQUOTE]
     ++ Replace.trailing BACKSLASH [BACKSLASH]
          (Replace.chars (N.eqb DQUOTE) (fun _ => [BACKSLASH; DQUOTE]) arg)
     ++ [DQUOTE]).

(** [this.weak] is [CmdQuotingFunctions.weak] at every call of the
    sources. *)
Definition strong (arg : jsstring) : jsstring :=
  Replace.chars (N.eqb PERCENT) (fun _ => [DQUOTE; PERCENT; DQUOTE])
    (weak arg).

End Cmd.

Module Powershell.

(** The class of [escape]: backtick, bar, braces, parentheses, angle
    brackets, semicolon, both quotes and the space. *)
Definition special (c : N) : bool :=
  existsb (N.eqb c) (lit "`|{}()<>;" ++ [DQUOTE; SQUOTE; SPACE]).

Definition escape (arg : jsstring) : jsstring :=
  Replace.chars special (fun c => BACKTICK :: [c]) arg.

Definition strong (arg : jsstring) : jsstring :=
  [SQUOTE]
  ++ Replace.chars (N.eqb SQUOTE) (fun _ => [SQUOTE; SQUOTE]) arg
  ++ [SQUOTE].

Definition weak (arg : jsstring) : jsstring :=
  [DQUOTE]
  ++ Replace.trailing BACKTICK [BACKTICK; BACKTICK]
       (Replace.chars (N.eqb DQUOTE) (fun _ => [BACKTICK; DQUOTE])
          (Replace.pair BACKTICK DQUOTE [BACKTICK; BACKTICK; DQUOTE] arg))
  ++ [DQUOTE].

End Powershell.

Definition BashQuotingFunctions : ShellQuotingFunctions :=
  {| escape := Some Bash.escape; strong := Some Bash.strong;
     weak := Some Bash.weak |}.

Definition CmdQuotingFunctions : ShellQuotingFunctions :=
  {| escape := Some Cmd.escape; strong := Some Cmd.strong;
     weak := Some Cmd.weak |}.

Definition PowershellQuotingFunctions : ShellQuotingFunctions :=
  {| escape := Some Powershell.escape; strong := Some Powershell.strong;
     weak := Some Powershell.weak |}.

(** The empty record [{}]. *)
Definition NoQuotingFunctions : ShellQuotingFunctions :=
  {| escape := None; strong := None; weak := None |}.

(* ================================================================== *)
(** ** run-in-terminal.ts *)

(** Modelled from the spec: the declaration of [TerminalProcessInfo]
    ([@theia/terminal/lib/common/base-terminal-protocol]) is not among the
    sources; the spec describes it as the object supplying the resolved
    path of the running shell, and [prepareCommandLine] reads only its
    [executable] member. *)
Record TerminalProcessInfo : Type := {
  executable : jsstring
}.

(** The [env] object as the entries that [Object.keys] enumerates, in that
    order; [None] is the value [null]. *)
Definition Env := list (jsstring * option jsstring).

(** [interface CommandLineOptions]; an absent [env] is [None]. *)
Record CommandLineOptions : Type := {
  cwd : jsstring;
  args : list jsstring;
  env : option Env
}.

(** The result of a call together with the [console.warn] messages it
    issued, in order. *)
Definition Logged (A : Type) : Type := (A * list jsstring)%type.

(** [args2]: every argument as a strongly quoted [ShellQuotedString]. *)
Definition args2 (args : list jsstring) : list ShellArg :=
  map (fun value => Quoted {| value := value; quoting := Strong |}) args.

(** The [for (const [key, value] of entries(env))] loops: every round
    appends the text of its entry to [command]. *)
Definition forEntries (text : jsstring * option jsstring -> jsstring)
  (env : Env) (command : jsstring) : jsstring :=
  fold_left (fun command entry => command ++ text entry) env command.

(** What the bash loop appends for one entry. *)
Definition bashEntry (entry : jsstring * option jsstring) : jsstring :=
  let '(key, value) := entry in
  match value with
  | None => lit " -u " ++ Bash.strong key
  | Some value => lit " " ++ Bash.strong (key ++ lit "=" ++ value)
  end.

Definition bashCommandLine (options : CommandLineOptions) : jsstring :=
  let command := [] in
  let command :=
    if truthy (cwd options)
    then command ++ lit "cd " ++ Bash.strong (cwd options) ++ lit " && "
    else command in
  let command :=
    match env options with
    | Some env => forEntries bashEntry env (command ++ lit "env") ++ lit " "
    | None => command
    end in
  command
  ++ createShellCommandLine (args2 (args options)) BashQuotingFunctions.

(** [quotedKey] of the powershell branch: the backticks first, then the
    question marks. *)
Definition quotedKey (key : jsstring) : jsstring :=
  Replace.chars (N.eqb QUESTION) (fun _ => lit "``?")
    (Replace.chars (N.eqb BACKTICK) (fun _ => lit "````") key).

(** What the powershell loop appends for one entry. *)
Definition powershellEntry (entry : jsstring * option jsstring)
  : jsstring :=
  let '(key, value) := entry in
  match value with
  | None => lit "Remove-Item ${env:" ++ quotedKey key ++ lit "}; "
  | Some value =>
      lit "${env:" ++ quotedKey key ++ lit "}=" ++ Powershell.strong value
      ++ lit "; "
  end.

Definition powershellCommandLine (options : CommandLineOptions)
  : jsstring :=
  let command := [] in
  let command :=
    if truthy (cwd options)
    then command ++ lit "cd " ++ Powershell.strong (cwd options) ++ lit "; "
    else command in
  let command :=
    match env options with
    | Some env => forEntries powershellEntry env command
    | None => command
    end in
  command ++ lit "& "
  ++ createShellCommandLine (args2 (args options)) PowershellQuotingFunctions.

(** What the cmd loop appends for one entry.  For a [null] value the whole
    clause, separator included, is the argument of [strong]. *)
Definition cmdEntry (entry : jsstring * option jsstring) : jsstring :=
  let '(key, value) := entry in
  match value with
  | None =>
      Cmd.strong
        (lit "set " ++ key ++ lit "=" ++ [DQUOTE; DQUOTE] ++ lit " && ")
  | Some value =>
      lit "set " ++ Cmd.strong (key ++ lit "=" ++ value) ++ lit " && "
  end.

Definition cmdCommandLine (options : CommandLineOptions) : jsstring :=
  let command := [] in
  let command :=
    if truthy (cwd options)
    then command ++ lit "cd " ++ Cmd.strong (cwd options) ++ lit " && "
    else command in
  let command :=
    match env options with
    | Some env =>
        forEntries cmdEntry env (command ++ lit "cmd /C " ++ [DQUOTE])
    | None => command
    end in
  let command :=
    command
    ++ createShellCommandLine (args2 (args options)) CmdQuotingFunctions in
  match env options with
  | Some _ => command ++ [DQUOTE]
  | None => command
  end.

(** [processInfo && processInfo.executable]. *)
Definition executableOf (processInfo : option TerminalProcessInfo)
  : option jsstring :=
  match processInfo with
  | Some p => Some (executable p)
  | None => None
  end.

(** The message of the final [console.warn]:
    [executable || 'undefined'] after the fixed text. *)
Definition unknownShellWarning (executable : option jsstring) : jsstring :=
  lit "Unknown shell, could not escape arguments: "
  ++ match executable with
     | Some e => if truthy e then e else lit "undefined"
     | None => lit "undefined"
     end.

Definition prepareCommandLine (processInfo : option TerminalProcessInfo)
  (options : CommandLineOptions) : Logged jsstring :=
  let executable := executableOf processInfo in
  let fallback :=
    (join (lit " ") (args options), [unknownShellWarning executable]) in
  match executable with
  | Some exe =>
      if truthy exe then
        if Regex.test Regex.bash_re exe
        then (bashCommandLine options, [])
        else if Regex.test Regex.powershell_re_i exe
        then (powershellCommandLine options, [])
        else if Regex.test Regex.cmd_re_i exe
        then (cmdCommandLine options, [])
        else fallback
      else fallback
  | None => fallback
  end.

(* ================================================================== *)
(** ** process-task-runner.ts: the shell classification of
       [getResolvedCommand] *)

(** Which branch of an if-chain over the shell executable is taken. *)
Inductive Dialect : Type :=
| DBash
| DCmd
| DPowershell
| DUnknown.

(** The chain of [prepareCommandLine]. *)
Definition commandLineDialect (exe : jsstring) : Dialect :=
  if Regex.test Regex.bash_re exe then DBash
  else if Regex.test Regex.powershell_re_i exe then DPowershell
  else if Regex.test Regex.cmd_re_i exe then DCmd
  else DUnknown.

(** The chain of [getResolvedCommand] for a task of type [shell]. *)
Definition taskRunnerDialect (command : jsstring) : Dialect :=
  if Regex.test Regex.bash_re command then DBash
  else if Regex.test Regex.cmd_re command then DCmd
  else if Regex.test Regex.powershell_re_unanchored command then DPowershell
  else DUnknown.

(** [quotingFunctions] and [execArgs] as the chain leaves them. *)
Definition taskRunnerShell (command : jsstring)
  : ShellQuotingFunctions * list jsstring :=
  match taskRunnerDialect command with
  | DBash => (BashQuotingFunctions, [lit "-l"; lit "-c"])
  | DCmd => (CmdQuotingFunctions, [lit "/c"])
  | DPowershell => (PowershellQuotingFunctions, [lit "-c"])
  | DUnknown => (NoQuotingFunctions, [])
  end.

(* ================================================================== *)
(** ** Vocabulary of the properties *)

(** The quoting mode [escapeForShell] looks up for an argument, and the
    value it quotes. *)
Definition requestedMode (arg : ShellArg) : ShellQuoting :=
  match arg with
  | Plain _ => Strong
  | Quoted q => quoting q
  end.

Definition valueOf (arg : ShellArg) : jsstring :=
  match arg with
  | Plain s => s
  | Quoted q => value q
  end.

(** No code unit of [s] is in the class [p]. *)
Definition avoids (p : N -> bool) (s : jsstring) : Prop :=
  Forall (fun c => p c = false) s.

(** The class [[A-Za-z0-9]]. *)
Definition isAlnum (c : N) : bool :=
  ((48 <=? c) && (c <=? 57)) || ((65 <=? c) && (c <=? 90))
  || ((97 <=? c) && (c <=? 122)).

(** [s] matches [^[A-Za-z0-9]*$]. *)
Definition alnum (s : jsstring) : Prop := forallb isAlnum s = true.

(** [s] ends in the code unit [c]. *)
Definition endsWith (c : N) (s : jsstring) : Prop :=
  exists t, s = t ++ [c].

(** The final invocation: the arguments, each quoted strongly. *)
Definition invocation (options : ShellQuotingFunctions)
  (args : list jsstring) : jsstring :=
  createShellCommandLine (args2 args) options.

(** The change-directory clause: absent for a falsy [cwd]. *)
Definition cdClause (strong : jsstring -> jsstring) (separator : jsstring)
  (cwd : jsstring) : jsstring :=
  if truthy cwd then lit "cd " ++ strong cwd ++ separator else [].

(** The environment clause of each dialect: absent for an absent [env]. *)
Definition bashEnvClause (env : option Env) : jsstring :=
  match env with
  | Some env => lit "env" ++ concat (map bashEntry env) ++ lit " "
  | None => []
  end.

Definition powershellEnvClause (env : option Env) : jsstring :=
  match env with
  | Some env => concat (map powershellEntry env)
  | None => []
  end.

(** For cmd the clause opens a [cmd /C] wrapper that is closed after the
    invocation. *)
Definition cmdEnvClause (env : option Env) : jsstring :=
  match env with
  | Some env => lit "cmd /C " ++ [DQUOTE] ++ concat (map cmdEntry env)
  | None => []
  end.

Definition cmdWrapperEnd (env : option Env) : jsstring :=
  match env with
  | Some _ => [DQUOTE]
  | None => []
  end.

(** How one code unit of an environment variable name is written between
    the braces of a powershell variable reference. *)
Definition quotedKeyUnit (c : N) : jsstring :=
  if c =? BACKTICK then [BACKTICK; BACKTICK; BACKTICK; BACKTICK]
  else if c =? QUESTION then [BACKTICK; BACKTICK; QUESTION]
  else [c].

(** The words that the entry of an environment patch hands to [env]. *)
Definition bashEntryWords (entry : jsstring * option jsstring)
  : list jsstring :=
  match entry with
  | (key, None) => [lit "-u"; key]
  | (key, Some value) => [key ++ lit "=" ++ value]
  end.

(** *** Words of a shell command line

    Quote removal and word splitting of the POSIX shell, for the part of
    its grammar that [env] clauses and strongly quoted arguments use:
    blanks separate words; between single quotes every code unit is
    literal; between double quotes every code unit but the backslash, the
    dollar, the backtick and the exclamation mark is literal; quoted and
    unquoted pieces that touch make one word.  Outside quotes only
    alphanumerics and the hyphen are read; operators and expansions are
    outside this fragment and make the reading fail. *)
Module Sh.

Inductive quote : Type :=
| Unquoted
| InSingle
| InDouble.

(** The words completed so far, the word being read (if any), and the
    quoting state. *)
Record lexer : Type := {
  finished : list jsstring;
  current : option jsstring;
  state : quote
}.

Definition initial : lexer :=
  {| finished := []; current := None; state := Unquoted |}.

(** All the words read, the one in progress included. *)
Definition flush (st : lexer) : list jsstring :=
  finished st ++ match current st with Some w => [w] | None => [] end.

Definition push (st : lexer) (c : N) (q : quote) : lexer :=
  {| finished := finished st;
     current := Some (match current st with Some w => w | None => [] end
                      ++ [c]);
     state := q |}.

(** Entering or leaving quotes starts a word if none is in progress. *)
Definition enter (st : lexer) (q : quote) : lexer :=
  {| finished := finished st;
     current := Some (match current st with Some w => w | None => [] end);
     state := q |}.

Definition isBlank (c : N) : bool := (c =? SPACE) || (c =? TAB).

Definition step (st : lexer) (c : N) : option lexer :=
  match state st with
  | InSingle =>
      if c =? SQUOTE then Some (enter st Unquoted)
      else Some (push st c InSingle)
  | InDouble =>
      if c =? DQUOTE then Some (enter st Unquoted)
      else if (c =? BACKSLASH) || (c =? 36) || (c =? BACKTICK) || (c =? 33)
      then None
      else Some (push st c InDouble)
  | Unquoted =>
      if isBlank c
      then Some {| finished := flush st; current := None;
                   state := Unquoted |}
      else if c =? SQUOTE then Some (enter st InSingle)
      else if c =? DQUOTE then Some (enter st InDouble)
      else if isAlnum c || (c =? 45) then Some (push st c Unquoted)
      else None
  end.

Fixpoint run (st : lexer) (s : jsstring) : option lexer :=
  match s with
  | [] => Some st
  | c :: t =>
      match step st c with
      | Some st' => run st' t
      | None => None
      end
  end.

(** The words of a line; [None] when a quote is left open or the line
    leaves the fragment. *)
Definition words (s : jsstring) : option (list jsstring) :=
  match run initial s with
  | Some st =>
      match state st with
      | Unquoted => Some (flush st)
      | _ => None
      end
  | None => None
  end.

End Sh.

(** [ShTokens l ws]: read after any unquoted position, [l] completes the
    word in progress, adds the words [ws], and ends unquoted. *)
Definition ShTokens (l : jsstring) (ws : list jsstring) : Prop :=
  forall st, Sh.state st = Sh.Unquoted ->
    exists st', Sh.run st l = Some st'
                /\ Sh.state st' = Sh.Unquoted
                /\ Sh.flush st' = Sh.flush st ++ ws.

(** An anchored expression read on the reversed string [q]: one of its
    alternatives, reversed, matches a prefix of [q]. *)
Definition ends (r : Regex.regex) (q : jsstring) : bool :=
  existsb (fun p => Regex.match_prefix (Regex.ignoreCase r) (rev p) q)
    (Regex.alternatives r).

(** [/bash(.exe)?$/i]: the bash pattern without regard to case. *)
Definition bash_re_i : Regex.regex :=
  {| Regex.alternatives := Regex.alternatives Regex.bash_re;
     Regex.anchored := true; Regex.ignoreCase := true |}.

(* ================================================================== *)
(** ** process-task-runner.ts: [getSystemSpecificCommand] and
       [getResolvedCommand] *)

Module Task.

(** Modelled from the spec: the declarations of [CommandOptions],
    [CommandProperties] and [TaskConfiguration]
    ([../../common/process/task-protocol], [../../common/task-protocol])
    are not among the sources.  The records hold the members that the two
    functions read, every optional member as an [option]. *)
Record ShellOptions : Type := {
  executable : option jsstring;
  shellArgs : option (list jsstring)
}.

Record CommandOptions : Type := {
  cwd : option jsstring;
  env : option Env;
  shell : option ShellOptions
}.

(** [{}] *)
Definition noOptions : CommandOptions :=
  {| cwd := None; env := None; shell := None |}.

(** The members a task configuration may repeat per system. *)
Record CommandProperties : Type := {
  command : option jsstring;
  args : option (list ShellArg);
  options : option CommandOptions
}.

Record TaskConfiguration : Type := {
  type : jsstring;
  base : CommandProperties;
  windows : option CommandProperties;
  osx : option CommandProperties;
  linux : option CommandProperties
}.

Inductive System : Type :=
| Windows
| Osx
| Linux.

(** [taskConfig[system]] *)
Definition section (taskConfig : TaskConfiguration) (system : System)
  : option CommandProperties :=
  match system with
  | Windows => windows taskConfig
  | Osx => osx taskConfig
  | Linux => linux taskConfig
  end.

(** What the functions take from their surroundings: the platform flags
    of [@theia/core], [process.env], the object spread
    [{...process.env, ...env}] of two environments, and the result of
    [ShellProcess.getShellExecutablePath()]. *)
Record Host : Type := {
  isWindows : bool;
  isOSX : bool;
  processEnv : Env;
  spread : Env -> Env -> Env;
  getShellExecutablePath : jsstring
}.

(** A call returns, or throws an [Error] with a message, or fails on a
    member access on [undefined]. *)
Inductive outcome (A : Type) : Type :=
| Return (a : A)
| Throw (message : jsstring)
| TypeError.

Arguments Return {A} a.
Arguments Throw {A} message.
Arguments TypeError {A}.

(** The object [{ command, args, options }] of both functions, before the
    command is known to be defined. *)
Record SystemSpecificCommand : Type := {
  sscCommand : option jsstring;
  sscArgs : option (list ShellArg);
  sscOptions : CommandOptions
}.

(** Truthiness of an optional string member. *)
Definition truthyMember (s : option jsstring) : bool :=
  match s with
  | Some s => truthy s
  | None => false
  end.

Definition getSystemSpecificCommand (taskConfig : TaskConfiguration)
  (system : option System) : outcome SystemSpecificCommand :=
  let command := command (base taskConfig) in
  let args := args (base taskConfig) in
  let options :=
    match options (base taskConfig) with
    | Some o => o
    | None => noOptions
    end in
  match system with
  | Some system =>
      match section taskConfig system with
      | None => TypeError
      | Some s =>
          let command :=
            if truthyMember (Task.command s) then Task.command s
            else command in
          let args :=
            match Task.args s with
            | Some a => Some a
            | None => args
            end in
          let options :=
            match Task.options s with
            | Some o => o
            | None => options
            end in
          Return {| sscCommand := command; sscArgs := args;
                    sscOptions := options |}
      end
  | None =>
      Return {| sscCommand := command; sscArgs := args;
                sscOptions := options |}
  end.

(** [member !== undefined] *)
Definition defined {A : Type} (member : option A) : bool :=
  match member with
  | Some _ => true
  | None => false
  end.

(** The system whose section [getResolvedCommand] asks for. *)
Definition selectedSystem (host : Host) (taskConfig : TaskConfiguration)
  : option System :=
  if isWindows host && defined (windows taskConfig) then Some Windows
  else if isOSX host && defined (osx taskConfig) then Some Osx
  else if negb (isWindows host) && negb (isOSX host)
          && defined (linux taskConfig)
  then Some Linux
  else None.

(** The returned object [{ command, args, options }]. *)
Record ResolvedCommand : Type := {
  rCommand : jsstring;
  rArgs : list jsstring;
  rOptions : CommandOptions
}.

Definition cwdError : jsstring :=
  lit "Can't run a task when 'cwd' is not provided by the client".

Definition commandError : jsstring :=
  lit "The `command` field of a task cannot be undefined.".

(** [shell && shell.executable || ShellProcess.getShellExecutablePath()] *)
Definition shellCommand (host : Host) (shell : option ShellOptions)
  : jsstring :=
  match shell with
  | Some sh =>
      if truthyMember (executable sh)
      then match executable sh with Some e => e | None => [] end
      else getShellExecutablePath host
  | None => getShellExecutablePath host
  end.

(** [shell && shell.args || execArgs]: an array, even empty, is truthy. *)
Definition shellPrefix (shell : option ShellOptions)
  (execArgs : list jsstring) : list jsstring :=
  match shell with
  | Some sh =>
      match shellArgs sh with
      | Some a => a
      | None => execArgs
      end
  | None => execArgs
  end.

Definition getResolvedCommand (host : Host) (taskConfig : TaskConfiguration)
  : outcome ResolvedCommand :=
  match getSystemSpecificCommand taskConfig
          (selectedSystem host taskConfig) with
  | TypeError => TypeError
  | Throw m => Throw m
  | Return systemSpecificCommand =>
      let options := sscOptions systemSpecificCommand in
      if negb (truthyMember (cwd options)) then Throw cwdError
      else
        let options :=
          {| cwd := cwd options;
             env := Some (spread host (processEnv host)
                            (match env options with
                             | Some e => e
                             | None => []
                             end));
             shell := shell options |} in
        match sscCommand systemSpecificCommand with
        | None => Throw commandError
        | Some taskCommand =>
            if list_eq_dec N.eq_dec (type taskConfig) (lit "shell")
            then
              let shell := Task.shell options in
              let command := shellCommand host shell in
              let '(quotingFunctions, execArgs) :=
                taskRunnerShell command in
              let args := shellPrefix shell execArgs in
              let args :=
                match sscArgs systemSpecificCommand with
                | Some _ =>
                    args
                    ++ [createShellCommandLine
                          (Plain taskCommand :: map Plain args)
                          quotingFunctions]
                | None => args ++ [taskCommand]
                end in
              Return {| rCommand := command; rArgs := args;
                        rOptions := options |}
            else
              let args :=
                match sscArgs systemSpecificCommand with
                | Some a => map valueOf a
                | None => []
                end in
              Return {| rCommand := taskCommand; rArgs := args;
                        rOptions := options |}
        end
  end.

End Task.

(** A host and two task configurations to try the functions on. *)
Definition exampleHost : Task.Host :=
  {| Task.isWindows := true; Task.isOSX := false; Task.processEnv := [];
     Task.spread := fun a b => a ++ b;
     Task.getShellExecutablePath := lit "C:\Windows\System32\cmd.exe" |}.

Definition exampleTask : Task.TaskConfiguration :=
  {| Task.type := lit "process";
     Task.base :=
       {| Task.command := Some (lit "node");
          Task.args :=
            Some [Plain (lit "-e");
                  Quoted {| value := lit "a b"; quoting := Weak |}];
          Task.options :=
            Some {| Task.cwd := Some (lit "/w"); Task.env := None;
                    Task.shell := None |} |};
     Task.windows := None; Task.osx := None;
     Task.linux :=
       Some {| Task.command := Some (lit "nodejs"); Task.args := None;
               Task.options := None |} |}.

Definition exampleWindowsTask : Task.TaskConfiguration :=
  {| Task.type := lit "process";
     Task.base := {| Task.command := Some (lit "node"); Task.args := None;
                     Task.options := None |};
     Task.windows :=
       Some {| Task.command := Some []; Task.args := None;
               Task.options := None |};
     Task.osx := None; Task.linux := None |}.

(* ================================================================== *)
(** * Properties *)

(** ** Replacements that find nothing to replace *)

Section NoMatch.

Variable p : N -> bool.

Lemma chars_avoids (f : N -> jsstring) (s : jsstring) :
  avoids p s -> Replace.chars p f s = s.
Proof.
  unfold Replace.chars.
  induction 1 as [|c t Hc _ IH]; simpl; [reflexivity|].
  now rewrite Hc, IH.
Qed.

Lemma runs_avoids (pre post s : jsstring) :
  avoids p s -> Replace.runs p pre post s = s.
Proof.
  unfold Replace.runs.
  induction 1 as [|c t Hc _ IH]; simpl; [reflexivity|].
  now rewrite Hc, IH.
Qed.

End NoMatch.

Lemma pair_avoids (a b : N) (r s : jsstring) :
  avoids (N.eqb b) s -> Replace.pair a b r s = s.
Proof.
  induction 1 as [|x u Hx Hu IH]; [reflexivity|].
  simpl. destruct u as [|y t]; [reflexivity|].
  inversion Hu as [|? ? Hy _]; subst.
  rewrite (N.eqb_sym y b), Hy, andb_false_r.
  now rewrite IH.
Qed.

Lemma trailing_avoids (c : N) (r s : jsstring) :
  avoids (N.eqb c) s -> Replace.trailing c r s = s.
Proof.
  induction 1 as [|x u Hx Hu IH]; [reflexivity|].
  simpl. destruct u as [|y t].
  - now rewrite N.eqb_sym, Hx.
  - now rewrite IH.
Qed.

Lemma first_line_return_avoids (s : jsstring) :
  avoids (N.eqb LF) s -> Replace.first_line_return s = s.
Proof.
  induction 1 as [|x u Hx Hu IH]; [reflexivity|].
  simpl. rewrite (N.eqb_sym x LF), Hx.
  destruct u as [|y t]; [reflexivity|].
  inversion Hu as [|? ? Hy _]; subst.
  rewrite (N.eqb_sym y LF), Hy, andb_false_r.
  now rewrite IH.
Qed.

Lemma avoids_app (p : N -> bool) (s t : jsstring) :
  avoids p s -> avoids p t -> avoids p (s ++ t).
Proof. intros Hs Ht. apply Forall_app. now split. Qed.

(** ** ASCII alphanumerics *)

Ltac to_arith :=
  rewrite ?orb_true_iff, ?andb_true_iff, ?N.eqb_eq, ?N.leb_le in *.

(** An alphanumeric code unit lies outside a class [p] as soon as [p]
    holds no alphanumeric. *)
Ltac outside_class :=
  let E := fresh "E" in
  match goal with
  | |- ?b = false => destruct b eqn:E; [exfalso | reflexivity]
  end;
  cbv [Bash.special Cmd.special Powershell.special Regex.isWhiteSpace
       Regex.isLineTerminator existsb lit String.list_ascii_of_string map app
       N_of_ascii N_of_digits isAlnum
       SQUOTE DQUOTE BACKSLASH BACKTICK PERCENT LF SPACE] in *;
  simpl in *; to_arith; lia.

Lemma alnum_avoids (p : N -> bool) (s : jsstring) :
  (forall c, isAlnum c = true -> p c = false) -> alnum s -> avoids p s.
Proof.
  intros Hp Hs. apply Forall_forall. intros c Hc. apply Hp.
  unfold alnum in Hs. rewrite forallb_forall in Hs. now apply Hs.
Qed.

Lemma alnum_not_char (k c : N) :
  isAlnum k = false -> isAlnum c = true -> (k =? c) = false.
Proof.
  intros Hk Hc. apply N.eqb_neq. intros ->. congruence.
Qed.

Lemma alnum_not_bash_special c : isAlnum c = true -> Bash.special c = false.
Proof. intros H. outside_class. Qed.

Lemma alnum_not_cmd_special c : isAlnum c = true -> Cmd.special c = false.
Proof. intros H. outside_class. Qed.

Lemma alnum_not_powershell_special c :
  isAlnum c = true -> Powershell.special c = false.
Proof. intros H. outside_class. Qed.

Lemma alnum_not_space c : isAlnum c = true -> Regex.isWhiteSpace c = false.
Proof. intros H. outside_class. Qed.

(** C2. On a string of ASCII alphanumerics (the empty string included)
    every dialect's [escape] is the identity, [strong] only adds the
    dialect's delimiters (single quotes for Bash and Powershell, double
    quotes for Cmd) and [weak] only adds double quotes. *)
Theorem quoting_of_alphanumerics (s : jsstring) :
  alnum s ->
  (Bash.escape s = s
   /\ Bash.strong s = [SQUOTE] ++ s ++ [SQUOTE]
   /\ Bash.weak s = [DQUOTE] ++ s ++ [DQUOTE])
  /\ (Cmd.escape s = s
      /\ Cmd.strong s = [DQUOTE] ++ s ++ [DQUOTE]
      /\ Cmd.weak s = [DQUOTE] ++ s ++ [DQUOTE])
  /\ (Powershell.escape s = s
      /\ Powershell.strong s = [SQUOTE] ++ s ++ [SQUOTE]
      /\ Powershell.weak s = [DQUOTE] ++ s ++ [DQUOTE]).
Proof.
  intros Hs.
  assert (Hch : forall k, isAlnum k = false -> avoids (N.eqb k) s).
  { intros k Hk. apply alnum_avoids; [|exact Hs].
    intros c Hc. now apply alnum_not_char. }
  assert (Hcmdweak : Cmd.weak s = [DQUOTE] ++ s ++ [DQUOTE]).
  { unfold Cmd.weak.
    rewrite (chars_avoids _ _ s) by now apply Hch.
    rewrite trailing_avoids by now apply Hch.
    apply first_line_return_avoids.
    apply (avoids_app _ [DQUOTE]); [now repeat constructor|].
    apply avoids_app; [now apply Hch | now repeat constructor]. }
  repeat split.
  - unfold Bash.escape. apply chars_avoids.
    apply alnum_avoids; [exact alnum_not_bash_special | exact Hs].
  - unfold Bash.strong. now rewrite runs_avoids by now apply Hch.
  - unfold Bash.weak.
    rewrite pair_avoids by now apply Hch.
    rewrite chars_avoids by now apply Hch.
    now rewrite trailing_avoids by now apply Hch.
  - unfold Cmd.escape.
    rewrite chars_avoids
      by (apply alnum_avoids; [exact alnum_not_cmd_special | exact Hs]).
    apply runs_avoids.
    apply alnum_avoids; [exact alnum_not_space | exact Hs].
  - unfold Cmd.strong. rewrite Hcmdweak. apply chars_avoids.
    apply (avoids_app _ [DQUOTE]); [now repeat constructor|].
    apply avoids_app; [now apply Hch | now repeat constructor].
  - exact Hcmdweak.
  - unfold Powershell.escape. apply chars_avoids.
    apply alnum_avoids; [exact alnum_not_powershell_special | exact Hs].
  - unfold Powershell.strong. now rewrite chars_avoids by now apply Hch.
  - unfold Powershell.weak.
    rewrite pair_avoids by now apply Hch.
    rewrite chars_avoids by now apply Hch.
    now rewrite trailing_avoids by now apply Hch.
Qed.

Lemma quoting_of_alphanumerics_witness :
  alnum (lit "Node18")
  /\ Bash.strong (lit "Node18") = lit "'Node18'"
  /\ Cmd.weak (lit "Node18") = [DQUOTE] ++ lit "Node18" ++ [DQUOTE]
  /\ Powershell.escape (lit "Node18") = lit "Node18".
Proof.
  assert (H : alnum (lit "Node18")) by reflexivity.
  split; [exact H|].
  destruct (quoting_of_alphanumerics (lit "Node18") H)
    as [[_ [Hb _]] [[_ [_ Hc]] [Hp _]]].
  split; [exact Hb | split; [exact Hc | exact Hp]].
Defined.

(** ** [escapeForShell] without a function for the mode *)

(** C8. When the record of quoting functions has no function for the mode
    requested for an argument, [escapeForShell] returns the value of the
    argument as it is; with the empty record that is so for every
    argument.  The function is total: there is no failing outcome. *)
Theorem escapeForShell_without_function :
  (forall (options : ShellQuotingFunctions) (arg : ShellArg),
      lookup options (requestedMode arg) = None ->
      escapeForShell arg options = valueOf arg)
  /\ (forall (v : jsstring) (mode : ShellQuoting),
         escapeForShell (Quoted {| value := v; quoting := mode |})
           NoQuotingFunctions = v)
  /\ (forall v : jsstring, escapeForShell (Plain v) NoQuotingFunctions = v).
Proof.
  split; [|split].
  - intros options [s|[v q]] H; unfold escapeForShell; simpl in *;
      now rewrite H.
  - now intros v [].
  - reflexivity.
Qed.

Lemma escapeForShell_without_function_witness :
  lookup {| escape := Some Bash.escape; strong := Some Bash.strong;
            weak := None |} Weak = None
  /\ escapeForShell (Quoted {| value := lit "a b"; quoting := Weak |})
       {| escape := Some Bash.escape; strong := Some Bash.strong;
          weak := None |} = lit "a b".
Proof.
  split; [reflexivity|].
  exact (proj1 escapeForShell_without_function
           {| escape := Some Bash.escape; strong := Some Bash.strong;
              weak := None |}
           (Quoted {| value := lit "a b"; quoting := Weak |}) eq_refl).
Defined.

(** ** Cmd weak quoting *)

(** The replacement of a trailing backslash by one backslash changes
    nothing. *)
Lemma cmd_trailing_backslash_kept (s : jsstring) :
  Replace.trailing BACKSLASH [BACKSLASH] s = s.
Proof.
  induction s as [|x [|y t] IH]; [reflexivity| |].
  - simpl. destruct (N.eqb_spec x BACKSLASH); now subst.
  - change (x :: Replace.trailing BACKSLASH [BACKSLASH] (y :: t)
            = x :: y :: t).
    now rewrite IH.
Qed.

(** C4. [Cmd.weak] leaves a trailing backslash single, so that it stands
    right before the closing double quote, where [Bash.weak] doubles it. *)
Theorem cmd_weak_trailing_backslash_not_doubled :
  Cmd.weak (lit "a\") = [DQUOTE] ++ lit "a\" ++ [DQUOTE]
  /\ Cmd.weak (lit "a\") <> [DQUOTE] ++ lit "a\\" ++ [DQUOTE]
  /\ Bash.weak (lit "a\") = [DQUOTE] ++ lit "a\\" ++ [DQUOTE].
Proof.
  split; [reflexivity|]. split; [discriminate | reflexivity].
Qed.

(** Code units before the first line return stay, the line return gets the
    caret, and nothing after it is looked at. *)
Lemma first_line_return_stops (s t : jsstring) :
  avoids (N.eqb LF) s -> avoids (N.eqb CR) s ->
  Replace.first_line_return (s ++ LF :: t) = s ++ CARET :: LF :: t.
Proof.
  intros Hlf Hcr. induction s as [|x u IH]; [reflexivity|].
  inversion Hlf as [|? ? Hx Hu]; subst.
  inversion Hcr as [|? ? Hx' Hu']; subst.
  change ((x :: u) ++ LF :: t) with (x :: (u ++ LF :: t)).
  cbn [Replace.first_line_return].
  rewrite (N.eqb_sym x LF), Hx, (N.eqb_sym x CR), Hx'. cbn [andb].
  rewrite (IH Hu Hu').
  destruct u; reflexivity.
Qed.

(** C5. [Cmd.weak] puts the caret before the first line return of the
    value only: a second line return is left as it is. *)
Theorem cmd_weak_escapes_first_line_return_only :
  Cmd.weak (lit "a" ++ [LF] ++ lit "b" ++ [LF] ++ lit "c")
  = [DQUOTE] ++ lit "a" ++ [CARET; LF] ++ lit "b" ++ [LF] ++ lit "c"
    ++ [DQUOTE]
  /\ Cmd.weak (lit "a" ++ [LF] ++ lit "b" ++ [LF] ++ lit "c")
     <> [DQUOTE] ++ lit "a" ++ [CARET; LF] ++ lit "b" ++ [CARET; LF]
        ++ lit "c" ++ [DQUOTE].
Proof.
  split; [reflexivity | discriminate].
Qed.

(** ** The shape of the command lines *)

Lemma forEntries_concat (text : jsstring * option jsstring -> jsstring)
  (env : Env) (command : jsstring) :
  forEntries text env command = command ++ concat (map text env).
Proof.
  unfold forEntries. revert command.
  induction env as [|e env IH]; intros command; simpl.
  - now rewrite app_nil_r.
  - now rewrite IH, app_assoc.
Qed.

Lemma bashCommandLine_clauses (options : CommandLineOptions) :
  bashCommandLine options
  = cdClause Bash.strong (lit " && ") (cwd options)
    ++ bashEnvClause (env options)
    ++ invocation BashQuotingFunctions (args options).
Proof.
  unfold bashCommandLine, cdClause, bashEnvClause, invocation.
  destruct (truthy (cwd options)), (env options) as [e|];
    rewrite ?forEntries_concat; cbn [app]; now rewrite <- ?app_assoc.
Qed.

Lemma powershellCommandLine_clauses (options : CommandLineOptions) :
  powershellCommandLine options
  = cdClause Powershell.strong (lit "; ") (cwd options)
    ++ powershellEnvClause (env options)
    ++ lit "& " ++ invocation PowershellQuotingFunctions (args options).
Proof.
  unfold powershellCommandLine, cdClause, powershellEnvClause, invocation.
  destruct (truthy (cwd options)), (env options) as [e|];
    rewrite ?forEntries_concat; cbn [app]; now rewrite <- ?app_assoc.
Qed.

Lemma cmdCommandLine_clauses (options : CommandLineOptions) :
  cmdCommandLine options
  = cdClause Cmd.strong (lit " && ") (cwd options)
    ++ cmdEnvClause (env options)
    ++ invocation CmdQuotingFunctions (args options)
    ++ cmdWrapperEnd (env options).
Proof.
  unfold cmdCommandLine, cdClause, cmdEnvClause, cmdWrapperEnd, invocation.
  destruct (truthy (cwd options)), (env options) as [e|];
    rewrite ?forEntries_concat; cbn [app];
    now rewrite <- ?app_assoc, ?app_nil_r.
Qed.

(** [prepareCommandLine] returns the line of the branch its chain of
    tests selects, and warns only when none is selected. *)
Lemma prepareCommandLine_dispatch (p : TerminalProcessInfo)
  (options : CommandLineOptions) :
  prepareCommandLine (Some p) options
  = match commandLineDialect (executable p) with
    | DBash => (bashCommandLine options, [])
    | DPowershell => (powershellCommandLine options, [])
    | DCmd => (cmdCommandLine options, [])
    | DUnknown =>
        (join (lit " ") (args options),
         [unknownShellWarning (Some (executable p))])
    end.
Proof.
  unfold prepareCommandLine, commandLineDialect, executableOf.
  destruct (executable p) as [|c exe]; [reflexivity|].
  cbn [truthy].
  now destruct (Regex.test Regex.bash_re (c :: exe)),
    (Regex.test Regex.powershell_re_i (c :: exe)),
    (Regex.test Regex.cmd_re_i (c :: exe)).
Qed.

(** ** The fallback for an unknown shell *)

(** C1. When the executable is undefined, or matches none of the three
    patterns, [prepareCommandLine] returns the arguments joined by single
    spaces, with nothing quoted and no clause added, and issues exactly
    one warning. *)
Theorem prepareCommandLine_unknown_shell
  (processInfo : option TerminalProcessInfo)
  (options : CommandLineOptions) :
  (executableOf processInfo = None
   \/ exists exe, executableOf processInfo = Some exe
        /\ Regex.test Regex.bash_re exe = false
        /\ Regex.test Regex.powershell_re_i exe = false
        /\ Regex.test Regex.cmd_re_i exe = false) ->
  prepareCommandLine processInfo options
  = (join (lit " ") (args options),
     [unknownShellWarning (executableOf processInfo)])
  /\ length (snd (prepareCommandLine processInfo options)) = 1%nat.
Proof.
  intros H.
  assert (E : prepareCommandLine processInfo options
              = (join (lit " ") (args options),
                 [unknownShellWarning (executableOf processInfo)])).
  { unfold prepareCommandLine.
    destruct H as [-> | (exe & -> & Hb & Hp & Hc)]; [reflexivity|].
    rewrite Hb, Hp, Hc. now destruct (truthy exe). }
  now rewrite E.
Qed.

Lemma prepareCommandLine_unknown_shell_witness :
  prepareCommandLine (Some {| executable := lit "/usr/bin/fish" |})
    {| cwd := lit "/tmp"; args := [lit "echo"; lit "a b"];
       env := Some [(lit "K", Some (lit "v"))] |}
  = (lit "echo a b",
     [lit "Unknown shell, could not escape arguments: /usr/bin/fish"])
  /\ prepareCommandLine None
       {| cwd := lit "/tmp"; args := [lit "echo"; lit "a b"];
          env := None |}
     = (lit "echo a b",
        [lit "Unknown shell, could not escape arguments: undefined"]).
Proof.
  split.
  - refine (proj1 (prepareCommandLine_unknown_shell
             (Some {| executable := lit "/usr/bin/fish" |}) _ _)).
    right. exists (lit "/usr/bin/fish"). repeat split; reflexivity.
  - refine (proj1 (prepareCommandLine_unknown_shell None _ _)).
    left. reflexivity.
Defined.

(** ** Environment variable names in powershell *)

Lemma chars_app (p : N -> bool) (f : N -> jsstring) (s t : jsstring) :
  Replace.chars p f (s ++ t) = Replace.chars p f s ++ Replace.chars p f t.
Proof. apply flat_map_app. Qed.

Lemma quotedKey_units (key : jsstring) :
  quotedKey key = flat_map quotedKeyUnit key.
Proof.
  unfold quotedKey. induction key as [|c key IH]; [reflexivity|].
  change (Replace.chars (N.eqb BACKTICK) (fun _ => lit "````") (c :: key))
    with ((if BACKTICK =? c then lit "````" else [c])
          ++ Replace.chars (N.eqb BACKTICK) (fun _ => lit "````") key).
  rewrite chars_app, IH. cbn [flat_map]. f_equal.
  unfold quotedKeyUnit. rewrite (N.eqb_sym c BACKTICK).
  destruct (N.eqb_spec BACKTICK c) as [<-|Hb]; [reflexivity|].
  rewrite (N.eqb_sym c QUESTION).
  unfold Replace.chars. cbn [flat_map].
  destruct (QUESTION =? c); reflexivity.
Qed.

(** C6, as the code has it. Before the name of an environment variable is
    written into the braces of [${env:...}], every backtick of the name
    becomes four backticks and every question mark becomes two backticks
    followed by the question mark; the clause that sets the variable and
    the clause that removes it both use the name so written. *)
Theorem powershell_variable_name_quoting :
  (forall key, quotedKey key = flat_map quotedKeyUnit key)
  /\ quotedKeyUnit BACKTICK = lit "````"
  /\ quotedKeyUnit QUESTION = lit "``?"
  /\ (forall c, c <> BACKTICK -> c <> QUESTION -> quotedKeyUnit c = [c])
  /\ (forall key value,
         powershellEntry (key, Some value)
         = lit "${env:" ++ flat_map quotedKeyUnit key ++ lit "}="
           ++ Powershell.strong value ++ lit "; ")
  /\ (forall key,
         powershellEntry (key, None)
         = lit "Remove-Item ${env:" ++ flat_map quotedKeyUnit key
           ++ lit "}; ").
Proof.
  split; [exact quotedKey_units|].
  split; [reflexivity|]. split; [reflexivity|].
  split; [|split].
  - intros c Hb Hq. unfold quotedKeyUnit.
    apply N.eqb_neq in Hb, Hq. now rewrite Hb, Hq.
  - intros key value. cbn [powershellEntry]. now rewrite quotedKey_units.
  - intros key. cbn [powershellEntry]. now rewrite quotedKey_units.
Qed.

Lemma powershell_variable_name_quoting_witness :
  BACKSLASH <> BACKTICK /\ BACKSLASH <> QUESTION
  /\ quotedKeyUnit BACKSLASH = [BACKSLASH].
Proof.
  assert (Hb : BACKSLASH <> BACKTICK) by discriminate.
  assert (Hq : BACKSLASH <> QUESTION) by discriminate.
  split; [exact Hb|]. split; [exact Hq|].
  exact (proj1 (proj2 (proj2 (proj2 powershell_variable_name_quoting)))
           BACKSLASH Hb Hq).
Defined.

(** C6, as stated, fails: a question mark in the name gets two backticks,
    not one. *)
Lemma powershell_question_mark_gets_two_backticks :
  quotedKey (lit "A?B") = lit "A``?B"
  /\ quotedKey (lit "A?B") <> lit "A`?B".
Proof. split; [reflexivity | discriminate]. Qed.

(** ** Removing a variable *)

(** C7. For an entry whose value is [null], bash adds [-u] and the
    strongly quoted name to its one [env] clause, and powershell adds a
    [Remove-Item] statement; cmd hands the whole clause, its separator
    included, to [strong], so that the line holds the clause between
    double quotes and not the clause itself. *)
Theorem cmd_unset_clause_is_quoted_whole :
  (forall key, bashEntry (key, None) = lit " -u " ++ Bash.strong key)
  /\ (forall key,
         powershellEntry (key, None)
         = lit "Remove-Item ${env:" ++ quotedKey key ++ lit "}; ")
  /\ cmdEntry (lit "FOO", None)
     = [DQUOTE] ++ lit "set FOO=\" ++ [DQUOTE] ++ lit "\" ++ [DQUOTE]
       ++ lit " && " ++ [DQUOTE]
  /\ cmdEntry (lit "FOO", None)
     <> lit "set FOO=" ++ [DQUOTE; DQUOTE] ++ lit " && "
  /\ fst (prepareCommandLine (Some {| executable := lit "cmd.exe" |})
            {| cwd := []; args := [lit "node"];
               env := Some [(lit "FOO", None)] |})
     = lit "cmd /C " ++ [DQUOTE]
       ++ ([DQUOTE] ++ lit "set FOO=\" ++ [DQUOTE] ++ lit "\" ++ [DQUOTE]
           ++ lit " && " ++ [DQUOTE])
       ++ ([DQUOTE] ++ lit "node" ++ [DQUOTE]) ++ [DQUOTE].
Proof.
  split; [reflexivity|]. split; [reflexivity|].
  split; [reflexivity|]. split; [discriminate | reflexivity].
Qed.

(** ** Absent clauses *)

(** C9, as the code has it. With an empty working directory no dialect
    writes a [cd] clause.  With an absent environment patch no dialect
    writes an environment clause.  With a patch that is present but has no
    entries, powershell writes no statement for it, while bash still
    writes the bare [env] prefix and cmd still wraps the invocation in
    [cmd /C] and double quotes. *)
Theorem clauses_for_empty_cwd_and_env :
  (forall args env,
      bashCommandLine {| cwd := []; args := args; env := env |}
      = bashEnvClause env ++ invocation BashQuotingFunctions args
      /\ powershellCommandLine {| cwd := []; args := args; env := env |}
         = powershellEnvClause env ++ lit "& "
           ++ invocation PowershellQuotingFunctions args
      /\ cmdCommandLine {| cwd := []; args := args; env := env |}
         = cmdEnvClause env ++ invocation CmdQuotingFunctions args
           ++ cmdWrapperEnd env)
  /\ (forall cwd args,
         bashCommandLine {| cwd := cwd; args := args; env := None |}
         = cdClause Bash.strong (lit " && ") cwd
           ++ invocation BashQuotingFunctions args
         /\ powershellCommandLine {| cwd := cwd; args := args; env := None |}
            = cdClause Powershell.strong (lit "; ") cwd ++ lit "& "
              ++ invocation PowershellQuotingFunctions args
         /\ cmdCommandLine {| cwd := cwd; args := args; env := None |}
            = cdClause Cmd.strong (lit " && ") cwd
              ++ invocation CmdQuotingFunctions args)
  /\ (forall cwd args,
         powershellCommandLine {| cwd := cwd; args := args; env := Some [] |}
         = cdClause Powershell.strong (lit "; ") cwd ++ lit "& "
           ++ invocation PowershellQuotingFunctions args
         /\ bashCommandLine {| cwd := cwd; args := args; env := Some [] |}
            = cdClause Bash.strong (lit " && ") cwd ++ lit "env "
              ++ invocation BashQuotingFunctions args
         /\ cmdCommandLine {| cwd := cwd; args := args; env := Some [] |}
            = cdClause Cmd.strong (lit " && ") cwd ++ lit "cmd /C "
              ++ [DQUOTE] ++ invocation CmdQuotingFunctions args
              ++ [DQUOTE])
  /\ (forall args,
         bashCommandLine {| cwd := []; args := args; env := None |}
         = invocation BashQuotingFunctions args
         /\ powershellCommandLine {| cwd := []; args := args; env := None |}
            = lit "& " ++ invocation PowershellQuotingFunctions args
         /\ cmdCommandLine {| cwd := []; args := args; env := None |}
            = invocation CmdQuotingFunctions args).
Proof.
  split; [|split; [|split]]; intros;
    rewrite bashCommandLine_clauses, powershellCommandLine_clauses,
      cmdCommandLine_clauses;
    cbn [cwd args env cdClause truthy bashEnvClause powershellEnvClause
         cmdEnvClause cmdWrapperEnd map concat app];
    rewrite ?app_nil_r; repeat split; reflexivity.
Qed.

(** C9, as stated, fails: a patch without entries still gets the [env]
    prefix in bash and the [cmd /C] wrapper in cmd. *)
Lemma empty_env_still_has_a_clause :
  ~ (forall options,
        cwd options = [] -> (env options = None \/ env options = Some []) ->
        bashCommandLine options
        = invocation BashQuotingFunctions (args options)
        /\ cmdCommandLine options
           = invocation CmdQuotingFunctions (args options)).
Proof.
  intros H.
  destruct (H {| cwd := []; args := [lit "ls"]; env := Some [] |}
              eq_refl (or_intror eq_refl)) as [Hb _].
  discriminate Hb.
Qed.

(** ** What the shell reads from a bash [env] clause *)

Lemma sh_run_app (a b : jsstring) (st : Sh.lexer) :
  Sh.run st (a ++ b)
  = match Sh.run st a with
    | Some st' => Sh.run st' b
    | None => None
    end.
Proof.
  revert st. induction a as [|c a IH]; intros st; [reflexivity|].
  cbn [app Sh.run]. destruct (Sh.step st c); [apply IH | reflexivity].
Qed.

(** Inside the quotes that [Bash.strong] opened, the rest of its output
    reads back as the rest of the argument: [inrun] tells whether the
    reader is between the double quotes of a run of single quotes or
    between the single quotes of the literal. *)
Lemma sh_run_strong_body (s : jsstring) :
  forall (inrun : bool) (fin : list jsstring) (w : jsstring),
    Sh.run {| Sh.finished := fin; Sh.current := Some w;
              Sh.state := if inrun then Sh.InDouble else Sh.InSingle |}
      (Replace.runs_from (N.eqb SQUOTE) [SQUOTE; DQUOTE] [DQUOTE; SQUOTE]
         inrun s ++ [SQUOTE])
    = Some {| Sh.finished := fin; Sh.current := Some (w ++ s);
              Sh.state := Sh.Unquoted |}.
Proof.
  induction s as [|c t IH]; intros inrun fin w.
  - rewrite app_nil_r. now destruct inrun.
  - cbn [Replace.runs_from].
    replace (w ++ c :: t) with ((w ++ [c]) ++ t)
      by now rewrite <- app_assoc.
    destruct (N.eqb_spec SQUOTE c) as [<-|Hc].
    + destruct inrun; rewrite <- app_assoc;
        [exact (IH true fin (w ++ [SQUOTE]))|].
      change (Sh.run {| Sh.finished := fin; Sh.current := Some w;
                        Sh.state := Sh.InSingle |}
                (([SQUOTE; DQUOTE] ++ [SQUOTE])
                 ++ Replace.runs_from (N.eqb SQUOTE) [SQUOTE; DQUOTE]
                      [DQUOTE; SQUOTE] true t ++ [SQUOTE])
              = Some {| Sh.finished := fin;
                        Sh.current := Some ((w ++ [SQUOTE]) ++ t);
                        Sh.state := Sh.Unquoted |}).
      rewrite sh_run_app. exact (IH true fin (w ++ [SQUOTE])).
    + assert (E : (c =? SQUOTE) = false)
        by (apply N.eqb_neq; congruence).
      assert (Hstep : Sh.step {| Sh.finished := fin; Sh.current := Some w;
                                 Sh.state := Sh.InSingle |} c
                      = Some {| Sh.finished := fin;
                                Sh.current := Some (w ++ [c]);
                                Sh.state := Sh.InSingle |})
        by (unfold Sh.step; cbn [Sh.state]; now rewrite E).
      destruct inrun; rewrite <- app_assoc.
      * change (Sh.run {| Sh.finished := fin; Sh.current := Some w;
                          Sh.state := Sh.InDouble |}
                  ([DQUOTE; SQUOTE]
                   ++ c :: Replace.runs_from (N.eqb SQUOTE) [SQUOTE; DQUOTE]
                             [DQUOTE; SQUOTE] false t ++ [SQUOTE])
                = Some {| Sh.finished := fin;
                          Sh.current := Some ((w ++ [c]) ++ t);
                          Sh.state := Sh.Unquoted |}).
        rewrite sh_run_app.
        change (Sh.run {| Sh.finished := fin; Sh.current := Some w;
                          Sh.state := Sh.InDouble |} [DQUOTE; SQUOTE])
          with (Some {| Sh.finished := fin; Sh.current := Some w;
                        Sh.state := Sh.InSingle |}).
        cbn [Sh.run]. rewrite Hstep. exact (IH false fin (w ++ [c])).
      * cbn [app Sh.run]. rewrite Hstep. exact (IH false fin (w ++ [c])).
Qed.

(** A strongly quoted argument reads back as the argument, joined to the
    word in progress. *)
Lemma sh_run_strong (s : jsstring) (fin : list jsstring)
  (cur : option jsstring) :
  Sh.run {| Sh.finished := fin; Sh.current := cur;
            Sh.state := Sh.Unquoted |} (Bash.strong s)
  = Some {| Sh.finished := fin;
            Sh.current :=
              Some (match cur with Some w => w | None => [] end ++ s);
            Sh.state := Sh.Unquoted |}.
Proof.
  unfold Bash.strong, Replace.runs.
  change ([SQUOTE] ++ ?r) with (SQUOTE :: r).
  cbn [Sh.run].
  exact (sh_run_strong_body s false fin
           (match cur with Some w => w | None => [] end)).
Qed.

Lemma tokens_app (a b : jsstring) (wa wb : list jsstring) :
  ShTokens a wa -> ShTokens b wb -> ShTokens (a ++ b) (wa ++ wb).
Proof.
  intros Ha Hb st Hst.
  destruct (Ha st Hst) as (st1 & R1 & S1 & F1).
  destruct (Hb st1 S1) as (st2 & R2 & S2 & F2).
  exists st2. rewrite sh_run_app, R1. repeat split; try assumption.
  now rewrite F2, F1, app_assoc.
Qed.

Lemma tokens_blank : ShTokens (lit " ") [].
Proof.
  intros [fin cur q] Hst. cbn in Hst. subst q.
  eexists. split; [reflexivity|]. split; [reflexivity|].
  cbn. now rewrite app_nil_r.
Qed.

(** A blank and a strongly quoted argument: one word, the argument. *)
Lemma tokens_strong (s : jsstring) :
  ShTokens (lit " " ++ Bash.strong s) [s].
Proof.
  intros [fin cur q] Hst. cbn in Hst. subst q.
  eexists. split.
  - change (lit " " ++ Bash.strong s) with (SPACE :: Bash.strong s).
    cbn [Sh.run]. 
    change (Sh.step {| Sh.finished := fin; Sh.current := cur;
                       Sh.state := Sh.Unquoted |} SPACE)
      with (Some {| Sh.finished :=
                      Sh.flush {| Sh.finished := fin; Sh.current := cur;
                                  Sh.state := Sh.Unquoted |};
                    Sh.current := None; Sh.state := Sh.Unquoted |}).
    cbv beta iota. apply sh_run_strong.
  - split; reflexivity.
Qed.

Lemma tokens_unset (key : jsstring) :
  ShTokens (lit " -u " ++ Bash.strong key) [lit "-u"; key].
Proof.
  intros [fin cur q] Hst. cbn in Hst. subst q.
  eexists. split.
  - rewrite sh_run_app.
    change (Sh.run {| Sh.finished := fin; Sh.current := cur;
                      Sh.state := Sh.Unquoted |} (lit " -u "))
      with (Some {| Sh.finished :=
                      Sh.flush {| Sh.finished := fin; Sh.current := cur;
                                  Sh.state := Sh.Unquoted |} ++ [lit "-u"];
                    Sh.current := None; Sh.state := Sh.Unquoted |}).
    cbv beta iota. apply sh_run_strong.
  - split; [reflexivity|]. unfold Sh.flush at 1. cbn [Sh.finished Sh.current].
    now rewrite <- app_assoc.
Qed.

Lemma tokens_bashEntry (entry : jsstring * option jsstring) :
  ShTokens (bashEntry entry) (bashEntryWords entry).
Proof.
  destruct entry as [key [value|]]; cbn [bashEntry bashEntryWords].
  - apply tokens_strong.
  - apply tokens_unset.
Qed.

Lemma tokens_concat {A : Type} (f : A -> jsstring) (g : A -> list jsstring)
  (l : list A) :
  (forall x, ShTokens (f x) (g x)) ->
  ShTokens (concat (map f l)) (flat_map g l).
Proof.
  intros H. induction l as [|x l IH]; cbn [map concat flat_map].
  - intros st Hst. exists st. now rewrite app_nil_r.
  - now apply tokens_app.
Qed.

Lemma invocation_bash (args : list jsstring) :
  invocation BashQuotingFunctions args
  = join (lit " ") (map Bash.strong args).
Proof.
  unfold invocation, createShellCommandLine, args2.
  now rewrite map_map.
Qed.

Lemma tokens_invocation (args : list jsstring) :
  ShTokens (lit " " ++ invocation BashQuotingFunctions args) args.
Proof.
  rewrite invocation_bash.
  induction args as [|a rest IH]; [exact tokens_blank|].
  destruct rest as [|b rest]; [exact (tokens_strong a)|].
  change (lit " " ++ join (lit " ") (map Bash.strong (a :: b :: rest)))
    with (lit " " ++ Bash.strong a
          ++ (lit " " ++ join (lit " ") (map Bash.strong (b :: rest)))).
  rewrite app_assoc.
  exact (tokens_app _ _ [a] (b :: rest) (tokens_strong a) IH).
Qed.

(** C10. In bash an assignment with a value that is not [null] is the
    whole text [key=value] quoted strongly, the equals sign inside the
    quotes, and it is added to the one [env] clause.  The shell reads the
    clause and the invocation back as the word [env], then for every entry
    its words ([key=value] as one word, or [-u] and the name), then the
    arguments: whatever code units the name and the value hold, they reach
    [env] in one word, unchanged. *)
Theorem bash_env_assignment_is_one_word :
  (forall key value,
      bashEntry (key, Some value)
      = lit " " ++ Bash.strong (key ++ lit "=" ++ value))
  /\ (forall cwd args entries,
         bashCommandLine {| cwd := cwd; args := args; env := Some entries |}
         = cdClause Bash.strong (lit " && ") cwd
           ++ (lit "env" ++ concat (map bashEntry entries) ++ lit " ")
           ++ invocation BashQuotingFunctions args)
  /\ (forall key value,
         Sh.words (Bash.strong (key ++ lit "=" ++ value))
         = Some [key ++ lit "=" ++ value])
  /\ (forall args entries,
         Sh.words (bashCommandLine
                     {| cwd := []; args := args; env := Some entries |})
         = Some (lit "env" :: flat_map bashEntryWords entries ++ args)).
Proof.
  split; [reflexivity|]. split; [|split].
  - intros wd argv entries. now rewrite bashCommandLine_clauses.
  - intros key value. unfold Sh.words, Sh.initial.
    now rewrite sh_run_strong.
  - intros argv entries. rewrite bashCommandLine_clauses.
    cbn [cwd args env cdClause truthy bashEnvClause].
    change ([] ++ ?x) with x. rewrite <- !app_assoc.
    unfold Sh.words. rewrite sh_run_app.
    change (Sh.run Sh.initial (lit "env"))
      with (Some {| Sh.finished := []; Sh.current := Some (lit "env");
                    Sh.state := Sh.Unquoted |}).
    cbv beta iota.
    destruct (tokens_app _ _ _ _
                (tokens_concat bashEntry bashEntryWords entries
                   tokens_bashEntry)
                (tokens_invocation argv)
                {| Sh.finished := []; Sh.current := Some (lit "env");
                   Sh.state := Sh.Unquoted |} eq_refl)
      as (st & R & S & F).
    rewrite R, S, F. reflexivity.
Qed.

(** ** Which shell an executable is taken for *)

Section Anchored.

Variable ic : bool.

Lemma match_exact_nil_snoc (s : jsstring) (c : N) :
  Regex.match_exact ic [] (s ++ [c]) = false.
Proof. now destruct s. Qed.

Lemma match_exact_snoc_nil (p : list Regex.atom) (a : Regex.atom) :
  Regex.match_exact ic (p ++ [a]) [] = false.
Proof. now destruct p. Qed.

Lemma match_exact_snoc (p : list Regex.atom) (a : Regex.atom) :
  forall (s : jsstring) (c : N),
    Regex.match_exact ic (p ++ [a]) (s ++ [c])
    = Regex.match_exact ic p s && Regex.atom_matches ic a c.
Proof.
  induction p as [|b p IH]; intros [|d s] c.
  - cbn. now rewrite andb_true_r.
  - change (Regex.match_exact ic ([] ++ [a]) ((d :: s) ++ [c]))
      with (Regex.atom_matches ic a d
            && Regex.match_exact ic [] (s ++ [c])).
    now rewrite match_exact_nil_snoc, andb_false_r.
  - change (Regex.match_exact ic ((b :: p) ++ [a]) ([] ++ [c]))
      with (Regex.atom_matches ic b c
            && Regex.match_exact ic (p ++ [a]) []).
    now rewrite match_exact_snoc_nil, andb_false_r.
  - change (Regex.match_exact ic ((b :: p) ++ [a]) ((d :: s) ++ [c]))
      with (Regex.atom_matches ic b d
            && Regex.match_exact ic (p ++ [a]) (s ++ [c])).
    rewrite IH. cbn [Regex.match_exact]. now rewrite andb_assoc.
Qed.

Lemma match_exact_rev (p : list Regex.atom) :
  forall s : jsstring,
    Regex.match_exact ic (rev p) (rev s) = Regex.match_exact ic p s.
Proof.
  induction p as [|a p IH]; intros [|c s].
  - reflexivity.
  - exact (match_exact_nil_snoc (rev s) c).
  - exact (match_exact_snoc_nil (rev p) a).
  - cbn [rev]. rewrite match_exact_snoc, IH. cbn [Regex.match_exact].
    apply andb_comm.
Qed.

Lemma match_prefix_nil (q : list Regex.atom) :
  Regex.match_prefix ic q [] = Regex.match_exact ic q [].
Proof. now destruct q. Qed.

(** A prefix of [u ++ [c]] is a prefix of [u] or the whole of it. *)
Lemma match_prefix_snoc (q : list Regex.atom) :
  forall (u : jsstring) (c : N),
    Regex.match_prefix ic q (u ++ [c])
    = Regex.match_prefix ic q u || Regex.match_exact ic q (u ++ [c]).
Proof.
  induction q as [|a q IH]; intros [|d u] c; try reflexivity.
  - change (Regex.atom_matches ic a c && Regex.match_prefix ic q []
            = false
              || Regex.atom_matches ic a c && Regex.match_exact ic q []).
    now rewrite match_prefix_nil.
  - change (Regex.atom_matches ic a d
            && Regex.match_prefix ic q (u ++ [c])
            = Regex.atom_matches ic a d && Regex.match_prefix ic q u
              || Regex.atom_matches ic a d
                 && Regex.match_exact ic q (u ++ [c])).
    now rewrite IH, andb_orb_distrib_r.
Qed.

(** A pattern anchored at the end is a prefix pattern on the reversed
    string. *)
Lemma search_end_rev (p : list Regex.atom) (s : jsstring) :
  Regex.search_end ic p s = Regex.match_prefix ic (rev p) (rev s).
Proof.
  induction s as [|c t IH].
  - cbn [Regex.search_end rev]. rewrite orb_false_r, match_prefix_nil.
    now rewrite <- (match_exact_rev p []).
  - cbn [Regex.search_end]. rewrite IH.
    change (rev (c :: t)) with (rev t ++ [c]).
    rewrite match_prefix_snoc, orb_comm. f_equal.
    now rewrite <- (match_exact_rev p (c :: t)).
Qed.

End Anchored.

Lemma test_anchored (r : Regex.regex) (s : jsstring) :
  Regex.anchored r = true -> Regex.test r s = ends r (rev s).
Proof.
  intros Ha. unfold Regex.test, ends. rewrite Ha.
  induction (Regex.alternatives r) as [|p l IH]; [reflexivity|].
  cbn [existsb]. now rewrite IH, search_end_rev.
Qed.

Lemma atom_matches_ignoring_case (a : Regex.atom) (c : N) :
  Regex.atom_matches false a c = true -> Regex.atom_matches true a c = true.
Proof.
  destruct a as [p|]; cbn [Regex.atom_matches]; [|trivial].
  intros H. apply N.eqb_eq in H. subst. apply N.eqb_refl.
Qed.

Lemma match_prefix_ignoring_case (p : list Regex.atom) :
  forall q, Regex.match_prefix false p q = true ->
            Regex.match_prefix true p q = true.
Proof.
  induction p as [|a p IH]; intros [|c q]; cbn [Regex.match_prefix];
    trivial.
  intros H. apply andb_true_iff in H. destruct H as [Ha Hp].
  now rewrite (atom_matches_ignoring_case _ _ Ha), (IH _ Hp).
Qed.

Lemma ends_bash_ignoring_case (q : jsstring) :
  ends Regex.bash_re q = true -> ends bash_re_i q = true.
Proof.
  unfold ends. cbn [Regex.alternatives Regex.ignoreCase Regex.bash_re
                    bash_re_i Regex.optExe existsb].
  rewrite !orb_false_r, !orb_true_iff.
  intros [H|H]; [left|right]; now apply match_prefix_ignoring_case.
Qed.

(** The case analysis behind the lemmas that two patterns never match the
    same string: the tests are laid out on the first code units of the
    reversed string and decided one comparison at a time. *)
Ltac eval_closed_tests :=
  repeat match goal with
    | |- context [Regex.canonicalize (Npos ?p)] =>
        let v := eval vm_compute in (Regex.canonicalize (Npos p)) in
        change (Regex.canonicalize (Npos p)) with v
    | |- context [N.eqb (Npos ?a) (Npos ?b)] =>
        let v := eval vm_compute in (N.eqb (Npos a) (Npos b)) in
        change (N.eqb (Npos a) (Npos b)) with v
    end;
  cbv beta iota.

Ltac abstract_units :=
  repeat match goal with
    | |- context [Regex.canonicalize ?c] =>
        is_var c; generalize (Regex.canonicalize c); intro
    | |- context [Regex.isLineTerminator ?c] =>
        is_var c; generalize (Regex.isLineTerminator c); intro
    end.

Ltac decide_tests :=
  eval_closed_tests;
  repeat (match goal with
          | |- context [N.eqb ?k ?d] =>
              is_var d; destruct (N.eqb_spec k d); [subst d|]
          | |- context [if ?b then _ else _] =>
              is_var b; destruct b
          end; eval_closed_tests);
  try reflexivity.

Ltac never_both :=
  let q := fresh "q" in
  intros q;
  do 14 (destruct q as [|? q];
         [cbv - [N.eqb Regex.canonicalize Regex.isLineTerminator];
          abstract_units; decide_tests|]);
  cbv - [N.eqb Regex.canonicalize Regex.isLineTerminator];
  abstract_units; decide_tests.

Lemma never_bash_and_powershell :
  forall q, ends bash_re_i q && ends Regex.powershell_re_i q = false.
Proof. never_both. Qed.

Lemma never_bash_and_cmd :
  forall q, ends bash_re_i q && ends Regex.cmd_re_i q = false.
Proof. never_both. Qed.

Lemma never_powershell_and_cmd :
  forall q, ends Regex.powershell_re_i q && ends Regex.cmd_re_i q = false.
Proof. never_both. Qed.

(** [prepareCommandLine] takes an executable for bash, powershell or cmd
    exactly when it matches the pattern of that shell, and for none of
    them exactly when it matches no pattern: the order of the tests does
    not matter, since no executable matches two of the patterns. *)
Lemma commandLineDialect_by_pattern (exe : jsstring) :
  (commandLineDialect exe = DBash
   <-> Regex.test Regex.bash_re exe = true)
  /\ (commandLineDialect exe = DPowershell
      <-> Regex.test Regex.powershell_re_i exe = true)
  /\ (commandLineDialect exe = DCmd
      <-> Regex.test Regex.cmd_re_i exe = true)
  /\ (commandLineDialect exe = DUnknown
      <-> Regex.test Regex.bash_re exe = false
          /\ Regex.test Regex.powershell_re_i exe = false
          /\ Regex.test Regex.cmd_re_i exe = false).
Proof.
  unfold commandLineDialect.
  rewrite !test_anchored by reflexivity.
  pose proof (never_bash_and_powershell (rev exe)) as Hbp.
  pose proof (never_bash_and_cmd (rev exe)) as Hbc.
  pose proof (never_powershell_and_cmd (rev exe)) as Hpc.
  pose proof (ends_bash_ignoring_case (rev exe)) as Hb.
  destruct (ends Regex.bash_re (rev exe));
    [rewrite (Hb eq_refl) in Hbp, Hbc; cbn [andb] in Hbp, Hbc;
     rewrite Hbp, Hbc|];
    destruct (ends Regex.powershell_re_i (rev exe));
    destruct (ends Regex.cmd_re_i (rev exe));
    try discriminate Hpc;
    repeat split; intros; try discriminate; try reflexivity;
    repeat match goal with H : _ /\ _ |- _ => destruct H end;
    discriminate.
Qed.

(** C3. The task runner does not take the same executables for the same
    shells as [prepareCommandLine] does: it tests cmd and powershell with
    regard to case, and its powershell pattern has no end anchor.  An
    executable written [CMD.EXE] matches the cmd pattern without regard to
    case and gets no quoting functions from the task runner; [pscp]
    matches none of the end-anchored patterns and gets the powershell
    quoting functions from it. *)
Theorem task_runner_classification_differs :
  (Regex.test Regex.cmd_re_i (lit "C:\Windows\System32\CMD.EXE") = true
   /\ commandLineDialect (lit "C:\Windows\System32\CMD.EXE") = DCmd
   /\ taskRunnerDialect (lit "C:\Windows\System32\CMD.EXE") = DUnknown
   /\ snd (taskRunnerShell (lit "C:\Windows\System32\CMD.EXE")) = [])
  /\ (Regex.test Regex.powershell_re_i (lit "PowerShell.exe") = true
      /\ commandLineDialect (lit "PowerShell.exe") = DPowershell
      /\ taskRunnerDialect (lit "PowerShell.exe") = DUnknown)
  /\ (Regex.test Regex.bash_re (lit "/usr/bin/pscp") = false
      /\ Regex.test Regex.powershell_re_i (lit "/usr/bin/pscp") = false
      /\ Regex.test Regex.cmd_re_i (lit "/usr/bin/pscp") = false
      /\ commandLineDialect (lit "/usr/bin/pscp") = DUnknown
      /\ taskRunnerDialect (lit "/usr/bin/pscp") = DPowershell
      /\ snd (taskRunnerShell (lit "/usr/bin/pscp")) = [lit "-c"]).
Proof.
  repeat split; vm_compute; reflexivity.
Qed.

(* ================================================================== *)
(** * Further properties of shell-quoting.ts *)

(** ** Command lines as a whole *)

Lemma join_app (sep : jsstring) (a b : list jsstring) :
  a <> [] -> b <> [] -> join sep (a ++ b) = join sep a ++ sep ++ join sep b.
Proof.
  intros Ha Hb. induction a as [|x a IH]; [contradiction|].
  destruct a as [|y a].
  - destruct b as [|z b]; [contradiction | reflexivity].
  - change (join sep ((x :: y :: a) ++ b))
      with (x ++ sep ++ join sep ((y :: a) ++ b)).
    rewrite IH by discriminate.
    change (join sep (x :: y :: a)) with (x ++ sep ++ join sep (y :: a)).
    now rewrite <- !app_assoc.
Qed.

(** X1. With the empty record of quoting functions, as the task runner has it
    for a shell it does not know, the command line is the values of the
    arguments joined by single spaces: nothing is quoted, whatever mode
    an argument asks for. *)
Theorem createShellCommandLine_without_functions (args : list ShellArg) :
  createShellCommandLine args NoQuotingFunctions
  = join (lit " ") (map valueOf args).
Proof.
  unfold createShellCommandLine. f_equal. apply map_ext.
  intros [s|[v []]]; reflexivity.
Qed.

(** X2. The command line of two argument lists put together is the two
    command lines with one space between them; arguments are neither
    dropped nor reordered. *)
Theorem createShellCommandLine_app (a b : list ShellArg)
  (options : ShellQuotingFunctions) :
  a <> [] -> b <> [] ->
  createShellCommandLine (a ++ b) options
  = createShellCommandLine a options ++ lit " "
    ++ createShellCommandLine b options.
Proof.
  intros Ha Hb. unfold createShellCommandLine. rewrite map_app.
  apply join_app; now destruct a, b.
Qed.

Lemma createShellCommandLine_app_witness :
  createShellCommandLine
    ([Plain (lit "git")] ++ [Plain (lit "log"); Plain (lit "a b")])
    BashQuotingFunctions
  = lit "'git'" ++ lit " " ++ lit "'log' 'a b'".
Proof.
  refine (createShellCommandLine_app [Plain (lit "git")]
            [Plain (lit "log"); Plain (lit "a b")] BashQuotingFunctions
            _ _); discriminate.
Defined.

Lemma words_join_strong (l : list jsstring) :
  Sh.words (join (lit " ") (map Bash.strong l)) = Some l.
Proof.
  destruct l as [|a rest]; [reflexivity|].
  unfold Sh.words.
  destruct rest as [|b rest].
  - cbn [map join]. unfold Sh.initial. now rewrite sh_run_strong.
  - change (join (lit " ") (map Bash.strong (a :: b :: rest)))
      with (Bash.strong a
            ++ (lit " " ++ join (lit " ") (map Bash.strong (b :: rest)))).
    rewrite sh_run_app. unfold Sh.initial. rewrite sh_run_strong.
    pose proof (tokens_invocation (b :: rest)) as T.
    rewrite invocation_bash in T.
    destruct (T {| Sh.finished := []; Sh.current := Some ([] ++ a);
                   Sh.state := Sh.Unquoted |} eq_refl)
      as (st & R & S & F).
    rewrite R, S, F. reflexivity.
Qed.

Lemma createShellCommandLine_bash_strong (args : list ShellArg) :
  Forall (fun arg => requestedMode arg = Strong) args ->
  createShellCommandLine args BashQuotingFunctions
  = join (lit " ") (map Bash.strong (map valueOf args)).
Proof.
  intros H. unfold createShellCommandLine. f_equal. rewrite map_map.
  apply map_ext_in. intros arg Hin.
  rewrite Forall_forall in H. specialize (H arg Hin).
  destruct arg as [s|[v q]]; [reflexivity|]. cbn in H. now subst q.
Qed.

(** X3. Round trip for bash: when every argument is a plain string or asks for
    strong quoting, a shell reading the command line gets back exactly
    the values of the arguments, one word each, in order, whatever code
    units they hold (the empty argument included). *)
Theorem bash_command_line_reads_back (args : list ShellArg) :
  Forall (fun arg => requestedMode arg = Strong) args ->
  Sh.words (createShellCommandLine args BashQuotingFunctions)
  = Some (map valueOf args).
Proof.
  intros H. rewrite createShellCommandLine_bash_strong by exact H.
  apply words_join_strong.
Qed.

Lemma bash_command_line_reads_back_witness :
  Sh.words
    (createShellCommandLine
       [Plain (lit "echo"); Plain (lit "it's $HOME | x");
        Quoted {| value := []; quoting := Strong |}]
       BashQuotingFunctions)
  = Some [lit "echo"; lit "it's $HOME | x"; []].
Proof.
  refine (bash_command_line_reads_back
            [Plain (lit "echo"); Plain (lit "it's $HOME | x");
             Quoted {| value := []; quoting := Strong |}] _).
  repeat constructor.
Defined.

(** X4. Two lists of plain arguments that give the same bash command line are
    the same list. *)
Theorem bash_command_line_injective (a b : list jsstring) :
  createShellCommandLine (map Plain a) BashQuotingFunctions
  = createShellCommandLine (map Plain b) BashQuotingFunctions ->
  a = b.
Proof.
  assert (E : forall l, createShellCommandLine (map Plain l)
                          BashQuotingFunctions
                        = join (lit " ") (map Bash.strong l)).
  { intros l. unfold createShellCommandLine. now rewrite map_map. }
  rewrite !E. intros H.
  pose proof (words_join_strong a) as Ha.
  rewrite H, words_join_strong in Ha. congruence.
Qed.

Lemma bash_command_line_injective_witness :
  [lit "a b"] = [lit "a b"].
Proof.
  exact (bash_command_line_injective [lit "a b"] [lit "a b"] eq_refl).
Defined.

(** ** Escaping one code unit at a time *)

Section EscapeCode.

Variable p : N -> bool.
Variable e : N.
Hypothesis escape_is_special : p e = true.

(** Writing the escape code unit before every code unit of a class that
    holds the escape code unit itself loses nothing. *)
Lemma chars_escape_injective (s : jsstring) :
  forall t,
    Replace.chars p (fun c => e :: [c]) s
    = Replace.chars p (fun c => e :: [c]) t ->
    s = t.
Proof.
  unfold Replace.chars.
  induction s as [|c s IH]; intros [|d t] H; cbn [flat_map] in H.
  - reflexivity.
  - destruct (p d); discriminate H.
  - destruct (p c); discriminate H.
  - destruct (p c) eqn:Hc, (p d) eqn:Hd; cbn [app] in H;
      injection H as H1 H2; subst.
    + f_equal. now apply IH.
    + congruence.
    + congruence.
    + f_equal. now apply IH.
Qed.

End EscapeCode.

(** X5. [escape] of bash and of powershell never gives the same text for two
    different arguments. *)
Theorem escape_injective (s t : jsstring) :
  (Bash.escape s = Bash.escape t -> s = t)
  /\ (Powershell.escape s = Powershell.escape t -> s = t).
Proof.
  split.
  - apply (chars_escape_injective Bash.special BACKSLASH eq_refl).
  - apply (chars_escape_injective Powershell.special BACKTICK eq_refl).
Qed.

Lemma escape_injective_witness :
  lit "a b" = lit "a b".
Proof.
  exact (proj1 (escape_injective (lit "a b") (lit "a b")) eq_refl).
Defined.

Lemma powershell_strong_body_injective (s : jsstring) :
  forall t,
    Replace.chars (N.eqb SQUOTE) (fun _ => [SQUOTE; SQUOTE]) s
    = Replace.chars (N.eqb SQUOTE) (fun _ => [SQUOTE; SQUOTE]) t ->
    s = t.
Proof.
  unfold Replace.chars.
  induction s as [|c s IH]; intros [|d t] H; cbn [flat_map] in H.
  - reflexivity.
  - destruct (SQUOTE =? d); discriminate H.
  - destruct (SQUOTE =? c); discriminate H.
  - destruct (N.eqb_spec SQUOTE c) as [<-|Hc],
      (N.eqb_spec SQUOTE d) as [<-|Hd]; cbn [app] in H.
    + injection H as H. f_equal. now apply IH.
    + injection H as H1 H2. congruence.
    + injection H as H1 H2. congruence.
    + injection H as H1 H2. subst. f_equal. now apply IH.
Qed.

(** X6. [strong] of bash and of powershell never gives the same text for two
    different arguments. *)
Theorem strong_injective (s t : jsstring) :
  (Bash.strong s = Bash.strong t -> s = t)
  /\ (Powershell.strong s = Powershell.strong t -> s = t).
Proof.
  split; intros H.
  - assert (W : forall u, Sh.words (Bash.strong u) = Some [u])
      by (intros u; exact (words_join_strong [u])).
    pose proof (W s) as Hs. rewrite H, W in Hs. congruence.
  - unfold Powershell.strong in H. cbn [app] in H. injection H as H.
    apply app_inv_tail in H. now apply powershell_strong_body_injective.
Qed.

Lemma strong_injective_witness :
  lit "it's" = lit "it's".
Proof.
  exact (proj2 (strong_injective (lit "it's") (lit "it's")) eq_refl).
Defined.

(** ** The trailing escape code unit of weak quoting *)

Section TrailingEscape.

Variables a b : N.
Variable r' : jsstring.
Hypothesis a_not_b : a <> b.

(** The replacement for the pair ends in the second code unit of the
    pair, as the replacements of [Bash.weak] and [Powershell.weak] do. *)
Let r : jsstring := r' ++ [b].

Lemma pair_snoc_first_bounded (n : nat) :
  forall s, (List.length s <= n)%nat ->
    Replace.pair a b r (s ++ [a]) = Replace.pair a b r s ++ [a].
Proof.
  induction n as [|n IH]; intros s Hn.
  - destruct s; [reflexivity | cbn in Hn; lia].
  - destruct s as [|x [|y t]]; [reflexivity | |].
    + cbn. assert (E : (a =? b) = false) by now apply N.eqb_neq.
      now rewrite E, andb_false_r.
    + change (Replace.pair a b r ((x :: y :: t) ++ [a]))
        with (if (x =? a) && (y =? b)
              then r ++ Replace.pair a b r (t ++ [a])
              else x :: Replace.pair a b r ((y :: t) ++ [a])).
      change (Replace.pair a b r (x :: y :: t))
        with (if (x =? a) && (y =? b)
              then r ++ Replace.pair a b r t
              else x :: Replace.pair a b r (y :: t)).
      cbn in Hn.
      destruct ((x =? a) && (y =? b)).
      * rewrite (IH t) by lia. now rewrite app_assoc.
      * rewrite (IH (y :: t)) by (cbn; lia). reflexivity.
Qed.

(** A final first code unit of the pair is no match and stays. *)
Lemma pair_snoc_first (s : jsstring) :
  Replace.pair a b r (s ++ [a]) = Replace.pair a b r s ++ [a].
Proof. exact (pair_snoc_first_bounded (List.length s) s (le_n _)). Qed.

Lemma pair_last_bounded (n : nat) :
  forall s c, (List.length s <= n)%nat ->
    exists u, Replace.pair a b r (s ++ [c]) = u ++ [c].
Proof.
  induction n as [|n IH]; intros s c Hn.
  - destruct s; [now exists [] | cbn in Hn; lia].
  - destruct s as [|x [|y t]]; [now exists [] | |].
    + cbn. destruct (N.eqb_spec x a) as [_|_]; cbn [andb];
        [|now exists [x]].
      destruct (N.eqb_spec c b) as [->|_]; [|now exists [x]].
      exists r'. now rewrite app_nil_r.
    + change (Replace.pair a b r ((x :: y :: t) ++ [c]))
        with (if (x =? a) && (y =? b)
              then r ++ Replace.pair a b r (t ++ [c])
              else x :: Replace.pair a b r ((y :: t) ++ [c])).
      cbn in Hn.
      destruct ((x =? a) && (y =? b)).
      * destruct (IH t c) as [u Hu]; [lia|].
        exists (r ++ u). now rewrite Hu, app_assoc.
      * destruct (IH (y :: t) c) as [u Hu]; [cbn; lia|].
        exists (x :: u). now rewrite Hu.
Qed.

(** The replacement of pairs keeps the last code unit of its input. *)
Lemma pair_last (s : jsstring) (c : N) :
  exists u, Replace.pair a b r (s ++ [c]) = u ++ [c].
Proof. exact (pair_last_bounded (List.length s) s c (le_n _)). Qed.

End TrailingEscape.

Lemma trailing_snoc (c : N) (r x : jsstring) :
  Replace.trailing c r (x ++ [c]) = x ++ r.
Proof.
  induction x as [|y x IH].
  - cbn. now rewrite N.eqb_refl.
  - change (Replace.trailing c r ((y :: x) ++ [c]))
      with (match x ++ [c] with
            | [] => if y =? c then r else [y]
            | _ :: _ => y :: Replace.trailing c r (x ++ [c])
            end).
    rewrite IH. now destruct x.
Qed.

Lemma trailing_snoc_other (c d : N) (r x : jsstring) :
  d <> c -> Replace.trailing c r (x ++ [d]) = x ++ [d].
Proof.
  intros Hd. induction x as [|y x IH].
  - cbn. apply N.eqb_neq in Hd. now rewrite Hd.
  - change (Replace.trailing c r ((y :: x) ++ [d]))
      with (match x ++ [d] with
            | [] => if y =? c then r else [y]
            | _ :: _ => y :: Replace.trailing c r (x ++ [d])
            end).
    rewrite IH. now destruct x.
Qed.

Lemma chars_snoc (p : N -> bool) (f : N -> jsstring) (s : jsstring)
  (c : N) :
  Replace.chars p f (s ++ [c])
  = Replace.chars p f s ++ (if p c then f c else [c]).
Proof.
  rewrite chars_app. unfold Replace.chars at 2. cbn [flat_map].
  now rewrite app_nil_r.
Qed.

(** The quoted text between the delimiters of a weak quoting whose escape
    code unit is [e], before the trailing escape is looked at. *)
Lemma weak_body_last (e : N) (s : jsstring) (c : N) :
  e <> DQUOTE ->
  exists u,
    Replace.chars (N.eqb DQUOTE) (fun _ => [e; DQUOTE])
      (Replace.pair e DQUOTE [e; e; DQUOTE] (s ++ [c]))
    = u ++ [c].
Proof.
  intros He.
  destruct (pair_last e DQUOTE [e; e] He s c) as [u Hu].
  change ([e; e] ++ [DQUOTE]) with [e; e; DQUOTE] in Hu.
  rewrite Hu, chars_snoc.
  destruct (N.eqb_spec DQUOTE c) as [<-|_].
  - exists (Replace.chars (N.eqb DQUOTE) (fun _ => [e; DQUOTE]) u ++ [e]).
    now rewrite <- app_assoc.
  - now eexists.
Qed.

(** X7. [Bash.weak] and [Powershell.weak] double the escape code unit that
    ends an argument, so that two of them stand before the closing double
    quote, and add nothing to an argument that does not end in it. *)
Theorem weak_doubles_trailing_escape (s : jsstring) :
  (Bash.weak (s ++ [BACKSLASH])
   = [DQUOTE]
     ++ Replace.chars (N.eqb DQUOTE) (fun _ => [BACKSLASH; DQUOTE])
          (Replace.pair BACKSLASH DQUOTE [BACKSLASH; BACKSLASH; DQUOTE] s)
     ++ [BACKSLASH; BACKSLASH] ++ [DQUOTE])
  /\ (Powershell.weak (s ++ [BACKTICK])
      = [DQUOTE]
        ++ Replace.chars (N.eqb DQUOTE) (fun _ => [BACKTICK; DQUOTE])
             (Replace.pair BACKTICK DQUOTE [BACKTICK; BACKTICK; DQUOTE] s)
        ++ [BACKTICK; BACKTICK] ++ [DQUOTE])
  /\ (~ endsWith BACKSLASH s ->
      Bash.weak s
      = [DQUOTE]
        ++ Replace.chars (N.eqb DQUOTE) (fun _ => [BACKSLASH; DQUOTE])
             (Replace.pair BACKSLASH DQUOTE [BACKSLASH; BACKSLASH; DQUOTE]
                s)
        ++ [DQUOTE])
  /\ (~ endsWith BACKTICK s ->
      Powershell.weak s
      = [DQUOTE]
        ++ Replace.chars (N.eqb DQUOTE) (fun _ => [BACKTICK; DQUOTE])
             (Replace.pair BACKTICK DQUOTE [BACKTICK; BACKTICK; DQUOTE] s)
        ++ [DQUOTE]).
Proof.
  assert (Hsnoc : forall e, e <> DQUOTE ->
            Replace.trailing e [e; e]
              (Replace.chars (N.eqb DQUOTE) (fun _ => [e; DQUOTE])
                 (Replace.pair e DQUOTE [e; e; DQUOTE] (s ++ [e])))
            = Replace.chars (N.eqb DQUOTE) (fun _ => [e; DQUOTE])
                (Replace.pair e DQUOTE [e; e; DQUOTE] s) ++ [e; e]).
  { intros e He.
    rewrite (pair_snoc_first e DQUOTE [e; e] He s
             : Replace.pair e DQUOTE [e; e; DQUOTE] (s ++ [e]) = _).
    rewrite chars_snoc.
    assert (E : (DQUOTE =? e) = false)
      by (apply N.eqb_neq; congruence).
    rewrite E. apply trailing_snoc. }
  assert (Hother : forall e, e <> DQUOTE -> ~ endsWith e s ->
            Replace.trailing e [e; e]
              (Replace.chars (N.eqb DQUOTE) (fun _ => [e; DQUOTE])
                 (Replace.pair e DQUOTE [e; e; DQUOTE] s))
            = Replace.chars (N.eqb DQUOTE) (fun _ => [e; DQUOTE])
                (Replace.pair e DQUOTE [e; e; DQUOTE] s)).
  { intros e He Hend.
    destruct s as [|x s']; [reflexivity|].
    destruct (@exists_last _ (x :: s') ltac:(discriminate))
      as (t & c & E).
    rewrite E in *.
    destruct (weak_body_last e t c He) as [u Hu]. rewrite Hu.
    apply trailing_snoc_other. intros ->. apply Hend. now exists t. }
  split; [|split; [|split]].
  - unfold Bash.weak. rewrite (Hsnoc BACKSLASH) by discriminate.
    now rewrite <- !app_assoc.
  - unfold Powershell.weak. rewrite (Hsnoc BACKTICK) by discriminate.
    now rewrite <- !app_assoc.
  - intros H. unfold Bash.weak. now rewrite (Hother BACKSLASH) by
      (discriminate || assumption).
  - intros H. unfold Powershell.weak. now rewrite (Hother BACKTICK) by
      (discriminate || assumption).
Qed.

Lemma not_endsWith_a : ~ endsWith BACKSLASH (lit "a").
Proof.
  intros [t H]. apply (f_equal (@rev N)) in H.
  rewrite rev_app_distr in H. discriminate H.
Qed.

Lemma weak_doubles_trailing_escape_witness :
  ~ endsWith BACKSLASH (lit "a")
  /\ Bash.weak (lit "a") = [DQUOTE] ++ lit "a" ++ [DQUOTE].
Proof.
  split; [exact not_endsWith_a|].
  exact (proj1 (proj2 (proj2 (weak_doubles_trailing_escape (lit "a"))))
           not_endsWith_a).
Defined.

(** ** Percent signs in cmd strong quoting *)

Lemma percent_wrapped (x : jsstring) :
  forall pre post,
    Replace.chars (N.eqb PERCENT) (fun _ => [DQUOTE; PERCENT; DQUOTE]) x
    = pre ++ PERCENT :: post ->
    exists pre' post', pre = pre' ++ [DQUOTE] /\ post = DQUOTE :: post'.
Proof.
  unfold Replace.chars.
  induction x as [|c x IH]; intros pre post H; cbn [flat_map] in H.
  - destruct pre; discriminate H.
  - destruct (N.eqb_spec PERCENT c) as [<-|Hc].
    + destruct pre as [|p1 [|p2 [|p3 pre]]]; cbn [app] in H.
      * discriminate H.
      * injection H as H1 H2. subst p1 post. now exists [], (flat_map
          (fun c => if PERCENT =? c then [DQUOTE; PERCENT; DQUOTE] else [c])
          x).
      * discriminate H.
      * injection H as H1 H2 H3 H. subst p1 p2 p3.
        destruct (IH pre post H) as (pre' & post' & -> & ->).
        now exists (DQUOTE :: PERCENT :: DQUOTE :: pre'), post'.
    + destruct pre as [|p1 pre]; cbn [app] in H.
      * injection H as H _. congruence.
      * injection H as H1 H. subst p1.
        destruct (IH pre post H) as (pre' & post' & -> & ->).
        now exists (c :: pre'), post'.
Qed.

(** X8. Wherever a percent sign stands in the output of [Cmd.strong], a double
    quote stands right before it and right after it: no percent sign of
    the argument is left as it was. *)
Theorem cmd_strong_wraps_every_percent (s pre post : jsstring) :
  Cmd.strong s = pre ++ PERCENT :: post ->
  exists pre' post', pre = pre' ++ [DQUOTE] /\ post = DQUOTE :: post'.
Proof. unfold Cmd.strong. apply percent_wrapped. Qed.

Lemma cmd_strong_wraps_every_percent_witness :
  exists pre' post',
    [DQUOTE] ++ lit "100" ++ [DQUOTE] = pre' ++ [DQUOTE]
    /\ [DQUOTE] ++ lit " done" ++ [DQUOTE] = DQUOTE :: post'.
Proof.
  exact (cmd_strong_wraps_every_percent (lit "100% done")
           ([DQUOTE] ++ lit "100" ++ [DQUOTE])
           ([DQUOTE] ++ lit " done" ++ [DQUOTE]) eq_refl).
Defined.

(** * Further properties of run-in-terminal.ts *)

Lemma quotedKeyUnit_injective (s : jsstring) :
  forall t, flat_map quotedKeyUnit s = flat_map quotedKeyUnit t -> s = t.
Proof.
  induction s as [|c s IH]; intros [|d t] H; cbn [flat_map] in H.
  - reflexivity.
  - unfold quotedKeyUnit in H.
    destruct (d =? BACKTICK), (d =? QUESTION); discriminate H.
  - unfold quotedKeyUnit in H.
    destruct (c =? BACKTICK), (c =? QUESTION); discriminate H.
  - unfold quotedKeyUnit in H.
    destruct (N.eqb_spec c BACKTICK) as [->|Hc1],
      (N.eqb_spec d BACKTICK) as [->|Hd1];
      [ | destruct (N.eqb_spec d QUESTION) as [->|Hd2]
        | destruct (N.eqb_spec c QUESTION) as [->|Hc2]
        | destruct (N.eqb_spec c QUESTION) as [->|Hc2],
            (N.eqb_spec d QUESTION) as [->|Hd2] ];
      cbn [app] in H; try discriminate H;
      try (injection H as H; f_equal; now apply IH);
      try (injection H as H1 H2; congruence).
    injection H as H1 H2. subst. f_equal. now apply IH.
Qed.

(** X10. Two different names of environment variables never get the same
    quoted name in a powershell variable reference. *)
Theorem quotedKey_injective (s t : jsstring) :
  quotedKey s = quotedKey t -> s = t.
Proof. rewrite !quotedKey_units. apply quotedKeyUnit_injective. Qed.

Lemma quotedKey_injective_witness : lit "A?B`" = lit "A?B`".
Proof.
  exact (quotedKey_injective (lit "A?B`") (lit "A?B`") eq_refl).
Defined.

(** X11. [prepareCommandLine] warns exactly when it does not know the shell:
    it issues no warning if and only if the executable is defined and
    matches one of the three patterns, and then its line is the line of
    the branch the executable selects. *)
Theorem prepareCommandLine_warns_only_when_unknown
  (processInfo : option TerminalProcessInfo)
  (options : CommandLineOptions) :
  snd (prepareCommandLine processInfo options) = []
  <-> exists exe,
        executableOf processInfo = Some exe
        /\ (Regex.test Regex.bash_re exe = true
            \/ Regex.test Regex.powershell_re_i exe = true
            \/ Regex.test Regex.cmd_re_i exe = true).
Proof.
  destruct processInfo as [[exe]|]; cbn [executableOf executable].
  - rewrite prepareCommandLine_dispatch. cbn [executable].
    unfold commandLineDialect.
    destruct (Regex.test Regex.bash_re exe) eqn:Eb;
      [|destruct (Regex.test Regex.powershell_re_i exe) eqn:Ep;
        [|destruct (Regex.test Regex.cmd_re_i exe) eqn:Ec]];
      cbn [snd]; split; intros H; try reflexivity;
      try (exists exe; split; [reflexivity | tauto]).
    + discriminate H.
    + destruct H as (e & [= <-] & [H|[H|H]]); congruence.
  - split; [discriminate|]. intros (e & H & _). discriminate H.
Qed.

Lemma prepareCommandLine_warns_only_when_unknown_witness :
  snd (prepareCommandLine (Some {| executable := lit "/bin/bash" |})
         {| cwd := []; args := [lit "ls"]; env := None |}) = [].
Proof.
  apply (proj2 (prepareCommandLine_warns_only_when_unknown
                  (Some {| executable := lit "/bin/bash" |})
                  {| cwd := []; args := [lit "ls"]; env := None |})).
  exists (lit "/bin/bash"). split; [reflexivity|]. left. reflexivity.
Defined.

Lemma commandLineDialect_by_pattern_witness :
  Regex.test Regex.powershell_re_i (lit "C:\Tools\PWSH.EXE") = true
  /\ commandLineDialect (lit "C:\Tools\PWSH.EXE") = DPowershell.
Proof.
  split; [reflexivity|].
  exact (proj2 (proj1 (proj2 (commandLineDialect_by_pattern
                                (lit "C:\Tools\PWSH.EXE")))) eq_refl).
Defined.

(** * Further properties of process-task-runner.ts *)

Lemma match_prefix_cmd_ignoring_case (q : jsstring) :
  ends Regex.cmd_re q = true -> ends Regex.cmd_re_i q = true.
Proof.
  unfold ends. cbn [Regex.alternatives Regex.ignoreCase Regex.cmd_re
                    Regex.cmd_re_i Regex.optExe existsb].
  rewrite !orb_false_r, !orb_true_iff.
  intros [H|H]; [left|right]; now apply match_prefix_ignoring_case.
Qed.

(** X14. Where the task runner takes a shell for bash or for cmd,
    [prepareCommandLine] takes it for the same shell. *)
Theorem taskRunnerDialect_bash_cmd_agree (command : jsstring) :
  taskRunnerDialect command = DBash \/ taskRunnerDialect command = DCmd ->
  commandLineDialect command = taskRunnerDialect command.
Proof.
  unfold taskRunnerDialect, commandLineDialect.
  rewrite (test_anchored Regex.bash_re), (test_anchored Regex.cmd_re),
    (test_anchored Regex.powershell_re_i), (test_anchored Regex.cmd_re_i)
    by reflexivity.
  pose proof (never_powershell_and_cmd (rev command)) as Hpc.
  pose proof (match_prefix_cmd_ignoring_case (rev command)) as Hc.
  destruct (ends Regex.bash_re (rev command)); [reflexivity|].
  destruct (ends Regex.cmd_re (rev command)).
  - rewrite (Hc eq_refl), andb_true_r in Hpc. now rewrite Hpc, (Hc eq_refl).
  - intros [H|H];
      destruct (Regex.test Regex.powershell_re_unanchored command);
      discriminate H.
Qed.

Lemma taskRunnerDialect_bash_cmd_agree_witness :
  commandLineDialect (lit "C:\Windows\System32\cmd.exe") = DCmd.
Proof.
  apply (taskRunnerDialect_bash_cmd_agree
           (lit "C:\Windows\System32\cmd.exe")).
  right. reflexivity.
Defined.



(** X16. In a task of type [shell] the arguments listed in the configuration
    never reach the command line: two configurations that differ only in
    what their argument lists hold resolve to the same command, arguments
    and options. *)
Theorem shell_task_ignores_listed_arguments (host : Task.Host)
  (command : option jsstring) (options : option Task.CommandOptions)
  (windows osx linux : option Task.CommandProperties)
  (args1 args2 : list ShellArg) :
  Task.getResolvedCommand host
    {| Task.type := lit "shell";
       Task.base := {| Task.command := command; Task.args := Some args1;
                       Task.options := options |};
       Task.windows := windows; Task.osx := osx; Task.linux := linux |}
  = Task.getResolvedCommand host
      {| Task.type := lit "shell";
         Task.base := {| Task.command := command; Task.args := Some args2;
                         Task.options := options |};
         Task.windows := windows; Task.osx := osx; Task.linux := linux |}.
Proof.
  unfold Task.getResolvedCommand, Task.selectedSystem,
    Task.getSystemSpecificCommand.
  cbn [Task.windows Task.osx Task.linux Task.base Task.type Task.command
       Task.args Task.options].
  destruct (Task.isWindows host && Task.defined windows);
    [|destruct (Task.isOSX host && Task.defined osx);
      [|destruct (negb (Task.isWindows host) && negb (Task.isOSX host)
                  && Task.defined linux)]];
    cbn [Task.section Task.windows Task.osx Task.linux];
    try (match goal with
         | |- context [match ?s with Some _ => _ | None => Task.TypeError end]
           => destruct s as [[c [a|] o]|]
         end);
    cbn [Task.command Task.args Task.options Task.sscOptions
         Task.sscCommand Task.sscArgs];
    try reflexivity;
    repeat match goal with
      | |- context [if ?b then _ else _] => destruct b; try reflexivity
      | |- context [match ?x with Some _ => _ | None => _ end] =>
          destruct x; try reflexivity
      | |- context [let '(_, _) := ?p in _] => destruct p; try reflexivity
      end.
Qed.

(** X17. In a task of another type the command is the command of the
    configuration and the arguments are the values of the listed
    arguments, in order, with their quoting requests dropped; without a
    list there are no arguments. *)
Theorem process_task_passes_values (host : Task.Host)
  (taskConfig : Task.TaskConfiguration)
  (ssc : Task.SystemSpecificCommand) (r : Task.ResolvedCommand) :
  Task.type taskConfig <> lit "shell" ->
  Task.getSystemSpecificCommand taskConfig
    (Task.selectedSystem host taskConfig) = Task.Return ssc ->
  Task.getResolvedCommand host taskConfig = Task.Return r ->
  Task.sscCommand ssc = Some (Task.rCommand r)
  /\ Task.rArgs r
     = match Task.sscArgs ssc with
       | Some a => map valueOf a
       | None => []
       end.
Proof.
  intros Hty E H. unfold Task.getResolvedCommand in H. rewrite E in H.
  destruct (negb (Task.truthyMember (Task.cwd (Task.sscOptions ssc))));
    [discriminate H|].
  destruct (Task.sscCommand ssc) as [taskCommand|]; [|discriminate H].
  destruct (list_eq_dec N.eq_dec (Task.type taskConfig) (lit "shell"));
    [contradiction|].
  injection H as <-. split; reflexivity.
Qed.

Lemma process_task_passes_values_witness :
  Some (lit "node") = Some (lit "node")
  /\ [lit "-e"; lit "a b"] = map valueOf
       [Plain (lit "-e"); Quoted {| value := lit "a b"; quoting := Weak |}].
Proof.
  refine (process_task_passes_values exampleHost exampleTask
            {| Task.sscCommand := Some (lit "node");
               Task.sscArgs :=
                 Some [Plain (lit "-e");
                       Quoted {| value := lit "a b"; quoting := Weak |}];
               Task.sscOptions :=
                 {| Task.cwd := Some (lit "/w"); Task.env := None;
                    Task.shell := None |} |}
            {| Task.rCommand := lit "node";
               Task.rArgs := [lit "-e"; lit "a b"];
               Task.rOptions :=
                 {| Task.cwd := Some (lit "/w"); Task.env := Some [];
                    Task.shell := None |} |} _ _ _).
  - discriminate.
  - reflexivity.
  - reflexivity.
Defined.

(** X18. A section of a system overrides the configuration member by member.
    A section with no command, or with the empty string for a command, and
    with no arguments and no options changes nothing; a section with a
    non-empty command, an argument list (even an empty one) and options
    replaces all three. *)
Theorem getSystemSpecificCommand_overrides
  (taskConfig : Task.TaskConfiguration) (system : Task.System)
  (s : Task.CommandProperties) :
  Task.section taskConfig system = Some s ->
  (Task.truthyMember (Task.command s) = false ->
   Task.args s = None -> Task.options s = None ->
   Task.getSystemSpecificCommand taskConfig (Some system)
   = Task.getSystemSpecificCommand taskConfig None)
  /\ (forall a o,
         Task.truthyMember (Task.command s) = true ->
         Task.args s = Some a -> Task.options s = Some o ->
         Task.getSystemSpecificCommand taskConfig (Some system)
         = Task.Return {| Task.sscCommand := Task.command s;
                          Task.sscArgs := Some a;
                          Task.sscOptions := o |}).
Proof.
  intros Hs. unfold Task.getSystemSpecificCommand. rewrite Hs. split.
  - intros Hc Ha Ho. now rewrite Hc, Ha, Ho.
  - intros a o Hc Ha Ho. now rewrite Hc, Ha, Ho.
Qed.

Lemma getSystemSpecificCommand_overrides_witness :
  Task.getSystemSpecificCommand exampleWindowsTask (Some Task.Windows)
  = Task.getSystemSpecificCommand exampleWindowsTask None.
Proof.
  exact (proj1 (getSystemSpecificCommand_overrides exampleWindowsTask
                  Task.Windows
                  {| Task.command := Some []; Task.args := None;
                     Task.options := None |} eq_refl)
           eq_refl eq_refl eq_refl).
Defined.

(** X19. On a Windows host the sections for macOS and for Linux play no part:
    whatever they hold, the task resolves the same. *)
Theorem windows_host_ignores_other_sections (host : Task.Host)
  (type : jsstring) (base : Task.CommandProperties)
  (windows osx1 linux1 osx2 linux2 : option Task.CommandProperties) :
  Task.isWindows host = true -> Task.isOSX host = false ->
  Task.getResolvedCommand host
    {| Task.type := type; Task.base := base; Task.windows := windows;
       Task.osx := osx1; Task.linux := linux1 |}
  = Task.getResolvedCommand host
      {| Task.type := type; Task.base := base; Task.windows := windows;
         Task.osx := osx2; Task.linux := linux2 |}.
Proof.
  intros Hw Ho.
  unfold Task.getResolvedCommand, Task.selectedSystem.
  cbn [Task.windows Task.osx Task.linux Task.type].
  rewrite Hw, Ho. cbn [andb negb].
  destruct windows; reflexivity.
Qed.

Lemma windows_host_ignores_other_sections_witness :
  Task.getResolvedCommand exampleHost exampleTask
  = Task.getResolvedCommand exampleHost
      {| Task.type := Task.type exampleTask;
         Task.base := Task.base exampleTask;
         Task.windows := None; Task.osx := None; Task.linux := None |}.
Proof.
  exact (windows_host_ignores_other_sections exampleHost
           (Task.type exampleTask) (Task.base exampleTask) None
           None (Task.linux exampleTask) None None eq_refl eq_refl).
Defined.

(** * Values that need no rewriting *)

(** X9. A value without a single quote is put between single quotes as it is
    by [Bash.strong] and [Powershell.strong], whatever else it holds; a
    value without a double quote and without a line feed is put between
    double quotes as it is by [Cmd.weak], a trailing backslash included,
    and by [Cmd.strong] if it has no percent sign either. *)
Theorem quoting_keeps_plain_values (s : jsstring) :
  (avoids (N.eqb SQUOTE) s ->
   Bash.strong s = [SQUOTE] ++ s ++ [SQUOTE]
   /\ Powershell.strong s = [SQUOTE] ++ s ++ [SQUOTE])
  /\ (avoids (N.eqb DQUOTE) s -> avoids (N.eqb LF) s ->
      Cmd.weak s = [DQUOTE] ++ s ++ [DQUOTE])
  /\ (avoids (N.eqb DQUOTE) s -> avoids (N.eqb LF) s ->
      avoids (N.eqb PERCENT) s ->
      Cmd.strong s = [DQUOTE] ++ s ++ [DQUOTE]).
Proof.
  assert (Hweak : avoids (N.eqb DQUOTE) s -> avoids (N.eqb LF) s ->
                  Cmd.weak s = [DQUOTE] ++ s ++ [DQUOTE]).
  { intros Hq Hl. unfold Cmd.weak.
    rewrite (chars_avoids _ _ s Hq), cmd_trailing_backslash_kept.
    apply first_line_return_avoids.
    apply (avoids_app _ [DQUOTE]); [now repeat constructor|].
    apply avoids_app; [exact Hl | now repeat constructor]. }
  split; [|split].
  - intros H. split.
    + unfold Bash.strong. now rewrite runs_avoids.
    + unfold Powershell.strong. now rewrite chars_avoids.
  - exact Hweak.
  - intros Hq Hl Hp. unfold Cmd.strong. rewrite (Hweak Hq Hl).
    apply chars_avoids.
    apply (avoids_app _ [DQUOTE]); [now repeat constructor|].
    apply avoids_app; [exact Hp | now repeat constructor].
Qed.

Lemma quoting_keeps_plain_values_witness :
  avoids (N.eqb SQUOTE) (lit "$HOME | a\")
  /\ Bash.strong (lit "$HOME | a\") = lit "'$HOME | a\'"
  /\ Powershell.strong (lit "$HOME | a\") = lit "'$HOME | a\'".
Proof.
  assert (H : avoids (N.eqb SQUOTE) (lit "$HOME | a\"))
    by (repeat constructor).
  split; [exact H|].
  exact (proj1 (quoting_keeps_plain_values (lit "$HOME | a\")) H).
Defined.

(** * Detection looks at the end of the path *)

Lemma search_end_prefix (ic : bool) (p : list Regex.atom)
  (pre s : jsstring) :
  Regex.search_end ic p s = true -> Regex.search_end ic p (pre ++ s) = true.
Proof.
  intros H. induction pre as [|c pre IH]; [exact H|].
  change (Regex.search_end ic p ((c :: pre) ++ s))
    with (Regex.match_exact ic p (c :: pre ++ s)
          || Regex.search_end ic p (pre ++ s)).
  now rewrite IH, orb_true_r.
Qed.

Lemma test_prefix (r : Regex.regex) (pre s : jsstring) :
  Regex.anchored r = true ->
  Regex.test r s = true -> Regex.test r (pre ++ s) = true.
Proof.
  intros Ha. unfold Regex.test. rewrite Ha.
  rewrite !existsb_exists. intros (p & Hin & Hp).
  exists p. split; [exact Hin | now apply search_end_prefix].
Qed.

Lemma dialect_of_powershell (exe : jsstring) :
  Regex.test Regex.powershell_re_i exe = true ->
  commandLineDialect exe = DPowershell.
Proof.
  intros H. unfold commandLineDialect. rewrite H.
  rewrite test_anchored in H |- * by reflexivity.
  pose proof (never_bash_and_powershell (rev exe)) as Hbp.
  pose proof (ends_bash_ignoring_case (rev exe)) as Hb.
  destruct (ends Regex.bash_re (rev exe)); [|reflexivity].
  rewrite (Hb eq_refl), H in Hbp. discriminate Hbp.
Qed.

Lemma dialect_of_cmd (exe : jsstring) :
  Regex.test Regex.cmd_re_i exe = true -> commandLineDialect exe = DCmd.
Proof.
  intros H. unfold commandLineDialect. rewrite H.
  rewrite (test_anchored Regex.bash_re),
    (test_anchored Regex.powershell_re_i) by reflexivity.
  rewrite test_anchored in H by reflexivity.
  pose proof (never_bash_and_cmd (rev exe)) as Hbc.
  pose proof (never_powershell_and_cmd (rev exe)) as Hpc.
  pose proof (ends_bash_ignoring_case (rev exe)) as Hb.
  rewrite H, andb_true_r in Hbc, Hpc. rewrite Hpc.
  destruct (ends Regex.bash_re (rev exe)); [|reflexivity].
  rewrite (Hb eq_refl) in Hbc. discriminate Hbc.
Qed.

(** X13. The shell an executable is taken for by [prepareCommandLine] depends
    on the end of its path only: once a name is taken for bash,
    powershell or cmd, it is taken for the same shell behind any
    directory or other prefix. *)
Theorem commandLineDialect_prefix (pre exe : jsstring) :
  commandLineDialect exe <> DUnknown ->
  commandLineDialect (pre ++ exe) = commandLineDialect exe.
Proof.
  intros H. unfold commandLineDialect in H |- * at 2.
  destruct (Regex.test Regex.bash_re exe) eqn:Eb.
  - unfold commandLineDialect.
    now rewrite (test_prefix Regex.bash_re pre exe eq_refl Eb).
  - destruct (Regex.test Regex.powershell_re_i exe) eqn:Ep.
    + apply dialect_of_powershell. now apply test_prefix.
    + destruct (Regex.test Regex.cmd_re_i exe) eqn:Ec.
      * apply dialect_of_cmd. now apply test_prefix.
      * contradiction.
Qed.

Lemma commandLineDialect_prefix_witness :
  commandLineDialect (lit "C:\Program Files\PowerShell\7\" ++ lit "pwsh.exe")
  = commandLineDialect (lit "pwsh.exe").
Proof.
  apply (commandLineDialect_prefix (lit "C:\Program Files\PowerShell\7\")
           (lit "pwsh.exe")).
  discriminate.
Defined.
